(** * Verification of the search core of rohini-lookup (src/server.py)

    Python strings are sequences of code points, modelled as [list Z].
    The parts of the Python runtime the code relies on (the Unicode
    Character Database behind [unicodedata] and [str.lower],
    [str.isalpha] and [str.isdigit]; the [re] engine behind pandas'
    [str.contains]) are parameters of the model: the general theorems
    hold for every table and engine, and concrete fragments of them are
    given further down to evaluate the code on explicit inputs. *)

From Stdlib Require Import ZArith QArith List Bool Sorting.Sorted Strings.String Strings.Ascii.
From Stdlib Require Import Qfield Lqa.
From stdpp Require Import base gmap strings.
Import ListNotations.
Open Scope Z_scope.

Abbreviation pystr := (list Z).

(** ASCII literal to code points. *)
Definition ustr (s : string) : pystr :=
  List.map (fun a => Z.of_nat (nat_of_ascii a)) (list_ascii_of_string s).

(** ** The Unicode Character Database, as far as the code uses it *)
Record ucd := {
  u_decomp : Z -> list Z;           (* full compatibility decomposition *)
  u_ccc : Z -> Z;                   (* canonical combining class *)
  u_is_mn : Z -> bool;              (* general category = Mn *)
  u_lowmap : Z -> list Z;           (* full lowercase mapping *)
  u_is_cased : Z -> bool;
  u_is_case_ignorable : Z -> bool;
  u_isalpha : Z -> bool;            (* str.isalpha on one code point *)
  u_isdigit : Z -> bool             (* str.isdigit on one code point *)
}.

(** [Py_UNICODE_ISSPACE]: the characters [str.strip()] removes. *)
Definition py_isspace (c : Z) : bool :=
  ((9 <=? c) && (c <=? 13)) || ((28 <=? c) && (c <=? 32)) ||
  (c =? 133) || (c =? 160) || (c =? 5760) ||
  ((8192 <=? c) && (c <=? 8202)) || (c =? 8232) || (c =? 8233) ||
  (c =? 8239) || (c =? 8287) || (c =? 12288).

Fixpoint lstrip (s : pystr) : pystr :=
  match s with
  | [] => []
  | c :: r => if py_isspace c then lstrip r else s
  end.

(** [str.strip()] *)
Definition py_strip (s : pystr) : pystr := rev (lstrip (rev (lstrip s))).

Section Unicode.
Variable U : ucd.

(** [str.lower()]: the full lowercase mapping of every code point, except
    U+03A3 which becomes U+03C2 in the Final_Sigma context
    ([handle_capital_sigma] in CPython); [pre] is the reversed prefix. *)
Fixpoint sigma_before (pre : list Z) : bool :=
  match pre with
  | [] => false
  | c :: r => if u_is_case_ignorable U c then sigma_before r else u_is_cased U c
  end.

Fixpoint sigma_after (post : list Z) : bool :=
  match post with
  | [] => true
  | c :: r => if u_is_case_ignorable U c then sigma_after r else negb (u_is_cased U c)
  end.

Fixpoint lower_go (pre : list Z) (s : pystr) : pystr :=
  match s with
  | [] => []
  | c :: r =>
      (if c =? 931 then [if sigma_before pre && sigma_after r then 962 else 963]
       else u_lowmap U c) ++ lower_go (c :: pre) r
  end.

Definition py_lower (s : pystr) : pystr := lower_go [] s.

(** Canonical ordering: every maximal run of code points of non-zero
    combining class is sorted stably by combining class. *)
Fixpoint insert_ccc (c : Z) (run : list Z) : list Z :=
  match run with
  | [] => [c]
  | x :: r => if u_ccc U c <? u_ccc U x then c :: x :: r else x :: insert_ccc c r
  end.

Definition sort_run (run : list Z) : list Z :=
  fold_left (fun acc c => insert_ccc c acc) run [].

Fixpoint canon_go (run : list Z) (s : list Z) : list Z :=
  match s with
  | [] => sort_run run
  | c :: r =>
      if u_ccc U c =? 0 then sort_run run ++ c :: canon_go [] r
      else canon_go (run ++ [c]) r
  end.

(** [unicodedata.normalize("NFKD", text)] *)
Definition nfkd (s : pystr) : pystr := canon_go [] (flat_map (u_decomp U) s).

(** [strip_marks] (server.py, lines 69-73) on a [str] argument. *)
Definition strip_marks (text : pystr) : pystr :=
  py_strip (py_lower (List.filter (fun ch => negb (u_is_mn U ch)) (nfkd text))).

End Unicode.

(** No two adjacent code points of non-zero combining class are in
    decreasing class order: the canonical ordering leaves such a string
    unchanged. *)
Fixpoint canon_ordered (U : ucd) (s : list Z) : bool :=
  match s with
  | a :: ((b :: _) as r) =>
      ((u_ccc U b =? 0) || (u_ccc U a =? 0) || (u_ccc U a <=? u_ccc U b)) &&
      canon_ordered U r
  | _ => true
  end.

(** Order of combining classes. *)
Definition ccc_le (U : ucd) (a b : Z) : Prop := u_ccc U a <= u_ccc U b.

(** A code point that is its own decomposition, not a non-spacing mark, its
    own lowercase and not U+03A3. *)
Definition lower_stable (U : ucd) (l : Z) : Prop :=
  u_decomp U l = [l] /\ u_is_mn U l = false /\ u_lowmap U l = [l] /\ l <> 931.

(** ** A fragment of the Unicode 14.0 tables

    Exact on ASCII and on U+00E9, U+0301, U+034F, U+03A3, U+03C2, U+03C3,
    U+1D165 and U+1D16D; every other code point is given the values of an
    uncased, undecomposable starter. *)
Definition frag_decomp (c : Z) : list Z :=
  if c =? 233 then [101; 769] else [c].

Definition frag_ccc (c : Z) : Z :=
  if c =? 769 then 230 else if c =? 119141 then 216
  else if c =? 119149 then 226 else 0.

Definition frag_is_mn (c : Z) : bool := (c =? 769) || (c =? 847).

Definition frag_upper (c : Z) : bool := (65 <=? c) && (c <=? 90).

Definition frag_lowmap (c : Z) : list Z :=
  if frag_upper c then [c + 32] else if c =? 931 then [963] else [c].

Definition frag_isalpha (c : Z) : bool :=
  frag_upper c || ((97 <=? c) && (c <=? 122)) || (c =? 233) ||
  (c =? 931) || (c =? 962) || (c =? 963).

Definition frag_is_case_ignorable (c : Z) : bool :=
  (c =? 39) || (c =? 46) || (c =? 58) || (c =? 94) || (c =? 96) ||
  (c =? 769) || (c =? 847).

Definition frag_isdigit (c : Z) : bool := (48 <=? c) && (c <=? 57).

Definition ucd_fragment : ucd := {|
  u_decomp := frag_decomp;
  u_ccc := frag_ccc;
  u_is_mn := frag_is_mn;
  u_lowmap := frag_lowmap;
  u_is_cased := frag_isalpha;
  u_is_case_ignorable := frag_is_case_ignorable;
  u_isalpha := frag_isalpha;
  u_isdigit := frag_isdigit
|}.


(** ** Regular expressions

    pandas' [Series.str.contains(pat, na=False)] runs with its default
    [regex=True]: it calls [re.compile(pat)], which raises [re.error] on a
    malformed pattern, and keeps the cells where [search] succeeds. An engine
    is [re.compile]: [None] when it raises, else the [search] predicate. *)
Record re_engine := { re_compile : pystr -> option (pystr -> bool) }.

(** A fragment of Python's [re]: literal characters, [.], groups, [|],
    the quantifiers [*], [+], [?] (optionally lazy) and escaped
    punctuation, compiled to a regular expression matched by derivatives.
    It raises as [re] does on an unbalanced [(] or [)], a quantifier with
    nothing to repeat, a repeated quantifier and a trailing backslash; it
    also refuses the syntax it does not cover ([[], [{], [^], [$], [(?],
    a backslash before a letter or digit). *)
Inductive rx :=
| RxNone | RxEps | RxChr (c : Z) | RxAny | RxAll
| RxCat (r1 r2 : rx) | RxAlt (r1 r2 : rx) | RxStar (r : rx).

Fixpoint rx_nullable (r : rx) : bool :=
  match r with
  | RxNone | RxChr _ | RxAny | RxAll => false
  | RxEps | RxStar _ => true
  | RxCat r1 r2 => rx_nullable r1 && rx_nullable r2
  | RxAlt r1 r2 => rx_nullable r1 || rx_nullable r2
  end.

Fixpoint rx_deriv (c : Z) (r : rx) : rx :=
  match r with
  | RxNone | RxEps => RxNone
  | RxChr d => if c =? d then RxEps else RxNone
  | RxAny => if c =? 10 then RxNone else RxEps   (* [.] skips a newline *)
  | RxAll => RxEps
  | RxCat r1 r2 =>
      if rx_nullable r1 then RxAlt (RxCat (rx_deriv c r1) r2) (rx_deriv c r2)
      else RxCat (rx_deriv c r1) r2
  | RxAlt r1 r2 => RxAlt (rx_deriv c r1) (rx_deriv c r2)
  | RxStar r1 => RxCat (rx_deriv c r1) (RxStar r1)
  end.

Definition rx_matches (r : rx) (s : pystr) : bool :=
  rx_nullable (fold_left (fun r c => rx_deriv c r) s r).

(** [pattern.search(s) is not None]: some substring matches. *)
Definition rx_search (r : rx) (s : pystr) : bool :=
  rx_matches (RxCat (RxStar RxAll) (RxCat r (RxStar RxAll))) s.

Definition is_quant (c : Z) : bool := (c =? 42) || (c =? 43) || (c =? 63).

Definition is_ascii_alnum (c : Z) : bool :=
  ((48 <=? c) && (c <=? 57)) || ((65 <=? c) && (c <=? 90)) ||
  ((97 <=? c) && (c <=? 122)).

Definition apply_quant (q : Z) (a : rx) : rx :=
  if q =? 42 then RxStar a else if q =? 43 then RxCat a (RxStar a) else RxAlt RxEps a.

(** A quantifier after an atom, with its lazy [?]; a second one is an error. *)
Definition p_quant (a : rx) (s : pystr) : option (rx * pystr) :=
  match s with
  | q :: r =>
      if is_quant q then
        let r' := match r with 63 :: r'' => r'' | _ => r end in
        match r' with
        | q' :: _ => if is_quant q' || (q' =? 123) then None else Some (apply_quant q a, r')
        | [] => Some (apply_quant q a, r')
        end
      else if q =? 123 then None else Some (a, s)
  | [] => Some (a, s)
  end.

Fixpoint p_alt (fuel : nat) (s : pystr) {struct fuel} : option (rx * pystr) :=
  match fuel with
  | O => None
  | S f =>
      match p_seq f s with
      | Some (r, 124 :: rest) =>
          match p_alt f rest with
          | Some (r2, rest') => Some (RxAlt r r2, rest')
          | None => None
          end
      | res => res
      end
  end
with p_seq (fuel : nat) (s : pystr) {struct fuel} : option (rx * pystr) :=
  match fuel with
  | O => None
  | S f =>
      match s with
      | [] => Some (RxEps, [])
      | c :: _ =>
          if (c =? 41) || (c =? 124) then Some (RxEps, s)
          else match p_atom f s with
               | Some (a, rest) =>
                   match p_quant a rest with
                   | Some (a', rest') =>
                       match p_seq f rest' with
                       | Some (r, rest'') => Some (RxCat a' r, rest'')
                       | None => None
                       end
                   | None => None
                   end
               | None => None
               end
      end
  end
with p_atom (fuel : nat) (s : pystr) {struct fuel} : option (rx * pystr) :=
  match fuel with
  | O => None
  | S f =>
      match s with
      | [] => None
      | 40 :: r =>
          match r with
          | 63 :: _ => None
          | _ =>
              match p_alt f r with
              | Some (g, 41 :: rest) => Some (g, rest)
              | _ => None
              end
          end
      | 46 :: r => Some (RxAny, r)
      | 92 :: c :: r => if is_ascii_alnum c then None else Some (RxChr c, r)
      | 92 :: [] => None
      | c :: r =>
          if is_quant c || (c =? 91) || (c =? 123) || (c =? 94) || (c =? 36)
          then None else Some (RxChr c, r)
      end
  end.

Definition frag_compile (pat : pystr) : option (pystr -> bool) :=
  match p_alt (4 * length pat + 4)%nat pat with
  | Some (r, []) => Some (rx_search r)
  | _ => None
  end.

Definition re_fragment : re_engine := {| re_compile := frag_compile |}.

(** ** Data frames

    A frame read with [dtype=str, na_filter=False] holds only strings: it is
    the list of its columns, each a name and its cells in row order. *)
Abbreviation frame := (list (pystr * list pystr)).

Definition str_eqb (a b : pystr) : bool := bool_decide (a = b).

Definition str_in (x : pystr) (l : list pystr) : bool := existsb (str_eqb x) l.

Definition df_columns (df : frame) : list pystr := List.map fst df.

(** [df[c]]; every call site below reads a column of the frame. *)
Definition df_get (df : frame) (c : pystr) : list pystr :=
  match find (fun p => str_eqb (fst p) c) df with
  | Some (_, v) => v
  | None => []
  end.

(** [df[c] = v]: an existing column is replaced in place, a new one is
    appended. *)
Definition df_set (df : frame) (c : pystr) (v : list pystr) : frame :=
  if str_in c (df_columns df)
  then List.map (fun p => if str_eqb (fst p) c then (c, v) else p) df
  else df ++ [(c, v)].

(** [len(df)] *)
Definition df_len (df : frame) : nat :=
  match df with
  | [] => 0
  | (_, v) :: _ => length v
  end.

(** [str(c).startswith("_")] *)
Definition is_internal (c : pystr) : bool :=
  match c with
  | 95 :: _ => true
  | _ => false
  end.

(** [Series.drop_duplicates()]: first occurrences, in order. *)
Fixpoint dedup_go (seen : list pystr) (l : list pystr) : list pystr :=
  match l with
  | [] => []
  | x :: r => if str_in x seen then dedup_go seen r else x :: dedup_go (x :: seen) r
  end.

Definition drop_duplicates (l : list pystr) : list pystr := dedup_go [] l.

(** [Series.head(n)]: a negative [n] drops the last [-n] elements. *)
Definition head {A} (n : Z) (l : list A) : list A :=
  if 0 <=? n then firstn (Z.to_nat n) l
  else firstn (length l - Z.to_nat (- n)) l.

(** Cells of [col] at the rows where [mask] holds (boolean indexing). *)
Fixpoint select {A} (mask : list bool) (col : list A) : list A :=
  match mask, col with
  | b :: m, x :: c => if b then x :: select m c else select m c
  | _, _ => []
  end.

(** ** Floats

    The ratios and means of the classifier are exact rationals here, and
    pandas' [mean()] of an empty series, NaN, is [None]; every comparison
    with NaN is false. *)
Definition py_mean (xs : list Q) : option Q :=
  match xs with
  | [] => None
  | _ => Some (fold_right Qplus 0%Q xs / inject_Z (Z.of_nat (length xs)))%Q
  end.

Definition ge_half (x : option Q) : bool :=
  match x with
  | Some q => Qle_bool (1 # 2) q
  | None => false
  end.

Definition ratio (k n : nat) : Q := (inject_Z (Z.of_nat k) / inject_Z (Z.of_nat n))%Q.

(** [re.compile(r"^[A-Z]{2,4}[0-9]{5,8}$")] used with [fullmatch]. *)
Definition is_upper_ascii (c : Z) : bool := (65 <=? c) && (c <=? 90).
Definition is_digit_ascii (c : Z) : bool := (48 <=? c) && (c <=? 57).

Fixpoint take_upper (s : pystr) : nat * pystr :=
  match s with
  | c :: r => if is_upper_ascii c then let '(k, t) := take_upper r in (S k, t) else (O, s)
  | [] => (O, [])
  end.

Definition epic_fullmatch (s : pystr) : bool :=
  let '(k, t) := take_upper s in
  (2 <=? k)%nat && (k <=? 4)%nat && forallb is_digit_ascii t &&
  (5 <=? length t)%nat && (length t <=? 8)%nat.

(** ** Column roles (server.py, lines 75-127) *)

(** [PREFERRED_NAME_COLUMNS]; the Devanagari entries are written as code
    points. *)
Definition PREFERRED_NAME_COLUMNS : list pystr :=
  [ustr "full name"; ustr "fullname"; ustr "full_name"; ustr "name_full"; ustr "name";
   [2344; 2366; 2350]; [2344; 2366; 2357];
   [2344; 2366; 2350; 95; 2361; 2367; 2306; 2342; 2368];
   ustr "Name"; ustr "Full Name"; ustr "Full_Name"].

Definition DISPLAY_COLS_PREFERENCE : list pystr :=
  [ustr "Serial No."; ustr "Voter ID"; ustr "Full Name (Marathi)";
   ustr "Full Name (English)"; ustr "Relative's Name (Marathi)";
   ustr "Relative's Name (English)"; ustr "Relationship"; ustr "Age";
   ustr "Gender"; ustr "House No."; ustr "Electoral Roll Ref"].

Section Columns.
Variable U : ucd.
(** [Series.sample(n, random_state=seed)]: [n] cells of the series, in an
    order fixed by the seed. *)
Variable df_sample : Z -> nat -> list pystr -> list pystr.

Definition count_true (f : Z -> bool) (s : pystr) : nat := length (List.filter f s).

Definition digit_ratio (x : pystr) : Q :=
  let x := py_strip x in
  match x with
  | [] => 0%Q
  | _ => ratio (count_true (u_isdigit U) x) (Nat.max 1 (length x))
  end.

Definition alpha_ratio (x : pystr) : Q :=
  match x with
  | [] => 0%Q
  | _ => ratio (count_true (u_isalpha U) x) (length x)
  end.

Definition match_rate (s : list pystr) : option Q :=
  py_mean (List.map (fun x => if epic_fullmatch x then 1%Q else 0%Q) s).

Definition digit_rate (s : list pystr) : option Q :=
  py_mean (List.map digit_ratio (df_sample 0 (Nat.min (length s) 300) s)).

Definition is_probably_epic (s : list pystr) : bool :=
  ge_half (match_rate s) || ge_half (digit_rate s).

Definition col_score (ser : list pystr) : option Q :=
  py_mean (List.map alpha_ratio (df_sample 1 (Nat.min (length ser) 300) ser)).

(** The heuristic loop: [best] and [best_score] start as [None] and [-1.0];
    [score > best_score] is false when [score] is NaN. *)
Fixpoint heuristic_go (cols : frame) (best : option pystr) (best_score : Q) : option pystr :=
  match cols with
  | [] => best
  | (c, ser) :: rest =>
      if is_probably_epic ser then heuristic_go rest best best_score
      else match col_score ser with
           | Some score =>
               if negb (Qle_bool score best_score)
               then heuristic_go rest (Some c) score
               else heuristic_go rest best best_score
           | None => heuristic_go rest best best_score
           end
  end.

(** [lower_map = {c.lower(): c for c in df.columns}]: a later column
    overwrites an earlier one with the same lowercase name. *)
Definition lower_map (cols : list pystr) : gmap pystr pystr :=
  fold_left (fun m c => <[py_lower U c := c]> m) cols ∅.

Fixpoint first_preferred (lm : gmap pystr pystr) (cands : list pystr) : option pystr :=
  match cands with
  | [] => None
  | cand :: rest =>
      match lm !! py_lower U cand with
      | Some c => Some c
      | None => first_preferred lm rest
      end
  end.

(** [pick_name_column]; [force] is [FORCE_NAME_COL]. A frame read from a
    CSV file has at least one column, so [df.columns[0]] exists. *)
Definition pick_name_column (force : option pystr) (df : frame) : pystr :=
  let cols := df_columns df in
  let fallback :=
    match first_preferred (lower_map cols) PREFERRED_NAME_COLUMNS with
    | Some c => c
    | None =>
        match heuristic_go df None (-1)%Q with
        | Some ((_ :: _) as c) => c
        | _ => List.hd [] cols
        end
    end in
  match force with
  | Some ((_ :: _) as f) => if str_in f cols then f else fallback
  | _ => fallback
  end.

End Columns.

(** [build_display_cols] *)
Definition build_display_cols (df : frame) (name_col : pystr) : list pystr :=
  let cols := [name_col] in
  let cols := fold_left (fun acc c =>
                if str_in c (df_columns df) && negb (str_in c acc) then acc ++ [c] else acc)
                DISPLAY_COLS_PREFERENCE cols in
  fold_left (fun acc c =>
    if negb (str_in c acc) && negb (is_internal c) then acc ++ [c] else acc)
    (df_columns df) cols.

(** ** The process state and its operations (server.py, lines 129-159 and
    330-389) *)

Inductive py_error :=
| FileNotFoundError        (* DATA_PATH missing *)
| ReadFailure              (* no encoding of [_read_csv_with_fallbacks] parsed *)
| MissingName              (* HTTPException(400, "Missing name") *)
| ReError                  (* re.error from a pattern given to str.contains *)
| NotReady.                (* DF is still None *)

Inductive py_result (A : Type) :=
| Ok (a : A)
| Raise (e : py_error).
Arguments Ok {A} a.
Arguments Raise {A} e.

(** The globals [DF], [NAME_COL] and [DISPLAY_COLS]. *)
Record ds_state := mkState {
  DF : option frame;
  NAME_COL : pystr;
  DISPLAY_COLS : list pystr
}.

Definition init_state : ds_state := mkState None [] [].

(** State and exceptions, threaded as the module-level globals are. *)
Definition M (A : Type) : Type := ds_state -> py_result A * ds_state.

Definition retM {A} (a : A) : M A := fun st => (Ok a, st).
Definition raiseM {A} (e : py_error) : M A := fun st => (Raise e, st).
Definition bindM {A B} (m : M A) (k : A -> M B) : M B :=
  fun st => match m st with
            | (Ok a, st') => k a st'
            | (Raise e, st') => (Raise e, st')
            end.
Definition getM : M ds_state := fun st => (Ok st, st).
Definition putM (st : ds_state) : M unit := fun _ => (Ok tt, st).

Notation "x <-- m ;; k" := (bindM m (fun x => k))
  (at level 100, m at next level, right associativity).

(** Reading [DF] fails while it is [None]. *)
Definition needDF (st : ds_state) : M frame :=
  match DF st with
  | Some df => retM df
  | None => raiseM NotReady
  end.

(** The data file: whether it exists, and what [pd.read_csv] gives for each
    encoding ([None] when it raises). *)
Record source := {
  src_exists : bool;
  src_read : string -> option frame
}.

Definition encs : list string :=
  ["utf-8"; "utf-8-sig"; "utf-16"; "utf-16le"; "utf-16be"; "cp1252"; "latin1"]%string.

Fixpoint read_first (rd : string -> option frame) (es : list string) : option frame :=
  match es with
  | [] => None
  | e :: rest =>
      match rd e with
      | Some df => Some df
      | None => read_first rd rest
      end
  end.

Definition read_csv_with_fallbacks (src : source) : option frame := read_first (src_read src) encs.

Definition NAME_KEY : pystr := ustr "_name_key".
Definition NAME_NORM : pystr := ustr "_name_norm".

(** A row of [iterrows()], as an ordered mapping from column to cell. *)
Abbreviation row := (list (pystr * pystr)).

Section Server.
Variable U : ucd.
Variable df_sample : Z -> nat -> list pystr -> list pystr.
Variable RE : re_engine.
Variable FORCE_NAME_COL : option pystr.
Variable DATA : source.

(** The name column chosen in [load_dataset]. *)
Definition choose_name_col (df : frame) : pystr :=
  let cols := df_columns df in
  if str_in (ustr "Full Name (English)") cols then ustr "Full Name (English)"
  else if str_in (ustr "Full Name (Marathi)") cols then ustr "Full Name (Marathi)"
  else if str_in (ustr "Full Name") cols then ustr "Full Name"
  else pick_name_column U df_sample FORCE_NAME_COL df.

Definition load_dataset : M unit :=
  if negb (src_exists DATA) then raiseM FileNotFoundError
  else match read_csv_with_fallbacks DATA with
       | None => raiseM ReadFailure
       | Some df =>
           let name_col := choose_name_col df in
           let df := df_set df name_col (df_get df name_col) in
           let df := df_set df NAME_KEY
                       (List.map (fun v => py_lower U (py_strip v)) (df_get df name_col)) in
           let df := df_set df NAME_NORM (List.map (strip_marks U) (df_get df name_col)) in
           st <-- getM ;;
           _ <-- putM (mkState (Some df) (NAME_COL st) (DISPLAY_COLS st)) ;;
           st <-- getM ;;
           _ <-- putM (mkState (DF st) name_col (DISPLAY_COLS st)) ;;
           st <-- getM ;;
           putM (mkState (DF st) (NAME_COL st) (build_display_cols df (NAME_COL st)))
       end.

Record meta_out := { m_name_col : pystr; m_columns : list pystr; m_total_rows : nat }.

Definition meta : M meta_out :=
  st <-- getM ;;
  df <-- needDF st ;;
  retM {| m_name_col := NAME_COL st;
          m_columns := List.filter (fun c => negb (is_internal c)) (df_columns df);
          m_total_rows := df_len df |}.

Definition suggest (q : pystr) (limit : Z) : M (list pystr) :=
  let query := strip_marks U q in
  st <-- getM ;;
  df <-- needDF st ;;
  match query with
  | [] =>
      let names := List.map py_strip (df_get df (NAME_COL st)) in
      retM (head limit (drop_duplicates (List.filter (fun x => negb (str_eqb x [])) names)))
  | _ =>
      match re_compile RE query with
      | None => raiseM ReError
      | Some srch =>
          let mask := List.map srch (df_get df NAME_NORM) in
          retM (head limit (drop_duplicates
                  (List.map py_strip (select mask (df_get df (NAME_COL st))))))
      end
  end.

(** [{k: v for k, v in row.items() if not str(k).startswith("_")}] for the
    rows where [mask] holds. *)
Definition rows_of (df : frame) (mask : list bool) : list row :=
  List.map (fun i => List.map (fun p => (fst p, nth i (snd p) []))
                       (List.filter (fun p => negb (is_internal (fst p))) df))
    (select mask (seq 0 (df_len df))).

Record lookup_out := { l_count : nat; l_rows : list row }.

Definition lookup (name : pystr) : M lookup_out :=
  let nm := py_strip name in
  match nm with
  | [] => raiseM MissingName
  | _ =>
      let key := py_lower U nm in
      st <-- getM ;;
      df <-- needDF st ;;
      let exact := List.map (str_eqb key) (df_get df NAME_KEY) in
      mask <-- (if existsb id exact then retM exact
                else match re_compile RE key with
                     | None => raiseM ReError
                     | Some srch =>
                         retM (List.map (fun v => srch (py_lower U (py_strip v)))
                                 (df_get df (NAME_COL st)))
                     end) ;;
      let rows := rows_of df mask in
      retM {| l_count := length rows; l_rows := rows |}
  end.

Record reload_out := { r_ok : bool; r_name_col : pystr; r_total_rows : nat }.

Definition reload_ds : M reload_out :=
  _ <-- load_dataset ;;
  st <-- getM ;;
  df <-- needDF st ;;
  retM {| r_ok := true; r_name_col := NAME_COL st; r_total_rows := df_len df |}.

End Server.

(** ** Statements of the claims *)

(** Literal substring test: [needle] occurs in [hay]. *)
Fixpoint prefix_of (needle hay : pystr) : bool :=
  match needle, hay with
  | [], _ => true
  | a :: n, b :: h => (a =? b) && prefix_of n h
  | _ :: _, [] => false
  end.

Fixpoint contains_sub (needle hay : pystr) : bool :=
  prefix_of needle hay ||
  match hay with
  | [] => false
  | _ :: h => contains_sub needle h
  end.

(** The spec's reading of the empty-query suggestions: the trimmed names,
    in row order, each kept when it is non-empty and does not occur among
    the trimmed names of the earlier rows. *)
Definition first_distinct_nonempty (names : list pystr) : list pystr :=
  List.map fst (List.filter
    (fun p => negb (str_eqb (fst p) []) && negb (str_in (fst p) (firstn (snd p) names)))
    (combine names (seq 0 (length names)))).

(** The query endpoints, and a run of calls on the state. *)
Inductive query_call :=
| CallSuggest (q : pystr) (limit : Z)
| CallLookup (name : pystr)
| CallMeta.

Definition run_call (U : ucd) (RE : re_engine) (c : query_call) (st : ds_state) : ds_state :=
  match c with
  | CallSuggest q limit => snd (suggest U RE q limit st)
  | CallLookup name => snd (lookup U RE name st)
  | CallMeta => snd (meta st)
  end.

Definition run_calls (U : ucd) (RE : re_engine) (cs : list query_call) (st : ds_state) : ds_state :=
  fold_left (fun st c => run_call U RE c st) cs st.

(** A sampler for concrete runs: the first [n] cells ([Series.sample]
    draws [n] cells in a seeded order). *)
Definition sample_prefix (seed : Z) (n : nat) (l : list pystr) : list pystr := firstn n l.

(** A data file holding one frame, readable in every encoding. *)
Definition csv_source (df : frame) : source := {| src_exists := true; src_read := fun _ => Some df |}.

(** The state after loading [df] at startup. *)
Definition loaded (force : option pystr) (df : frame) : ds_state :=
  snd (load_dataset ucd_fragment sample_prefix force (csv_source df) init_state).

(** ** Authentication and pages (server.py, lines 161-180 and 286-328) *)

(** [str.replace(old, new)]: every non-overlapping occurrence of [old], left
    to right; an empty [old] inserts [new] around every character. *)
Fixpoint replace_go (old new : string) (skip : nat) (s : string) : string :=
  match s with
  | EmptyString => EmptyString
  | String c r =>
      match skip with
      | S k => replace_go old new k r
      | O => if String.prefix old s
             then String.append new (replace_go old new (String.length old - 1) r)
             else String c (replace_go old new O r)
      end
  end.

Fixpoint replace_empty (new s : string) : string :=
  match s with
  | EmptyString => new
  | String c r => String.append new (String c (replace_empty new r))
  end.

Definition py_replace (s old new : string) : string :=
  match old with
  | EmptyString => replace_empty new s
  | _ => replace_go old new O s
  end.

Definition dq : string := String (Ascii.ascii_of_nat 34) EmptyString.

(** ['<div class="error">Incorrect password. Try again.</div>'] *)
Definition error_html : string :=
  String.append "<div class="
    (String.append dq (String.append "error"
      (String.append dq ">Incorrect password. Try again.</div>"))).

Definition AUTH_COOKIE_NAME : string := "rohini_auth".

(** [request.cookies]: the cookie dictionary of a request. *)
Abbreviation cookie_jar := (gmap string string).

Inductive cookie_op :=
  | NoCookie
  | SetCookie (name value : string) (max_age : Z) (httponly secure : bool) (samesite : string)
  | DeleteCookie (name : string).

Inductive response :=
  | Redirect (url : string) (status : Z) (op : cookie_op)
  | HtmlPage (body : string) (status : Z)
  | FilePage (path : string).

Section Auth.
(** [hmac.new(key, msg, hashlib.sha256).hexdigest()] on the UTF-8 bytes. *)
Variable hmac_sha256_hex : string -> string -> string.
Variable APP_PASSWORD AUTH_SALT : string.
(** The login page template [LOGIN_HTML], with its [{error_block}] slot. *)
Variable LOGIN_HTML : string.

Definition make_token : string := hmac_sha256_hex AUTH_SALT APP_PASSWORD.

Definition is_authenticated (cookies : cookie_jar) : bool :=
  match cookies !! AUTH_COOKIE_NAME with
  | None => false
  | Some EmptyString => false
  | Some token => String.eqb token make_token
  end.

Definition login_page (cookies : cookie_jar) : response :=
  if is_authenticated cookies then Redirect "/" 302 NoCookie
  else HtmlPage (py_replace LOGIN_HTML "{error_block}" "") 200.

Definition login_post (password : string) : response :=
  if negb (String.eqb password APP_PASSWORD) then
    HtmlPage (py_replace LOGIN_HTML "{error_block}" error_html) 401
  else Redirect "/" 302 (SetCookie AUTH_COOKIE_NAME make_token (7 * 24 * 60 * 60) true false "lax").

Definition logout : response := Redirect "/login" 302 (DeleteCookie AUTH_COOKIE_NAME).

Definition index (cookies : cookie_jar) : response :=
  if negb (is_authenticated cookies) then Redirect "/login" 302 NoCookie
  else FilePage "static/index.html".

End Auth.

(** A route with [Depends(require_auth)]: without a valid cookie the
    dependency raises the 401 error before the handler runs. *)
Inductive api_result (A : Type) :=
  | Unauthorized
  | Served (r : py_result A).
Arguments Unauthorized {A}.
Arguments Served {A} r.

Definition require_auth_then {A} (authed : bool) (h : M A) : ds_state -> api_result A * ds_state :=
  fun st => if authed then let '(r, st') := h st in (Served r, st') else (Unauthorized, st).

Section Routes.
Variable U : ucd.
Variable df_sample : Z -> nat -> list pystr -> list pystr.
Variable RE : re_engine.
Variable FORCE_NAME_COL : option pystr.
Variable DATA : source.
Variable hmac_sha256_hex : string -> string -> string.
Variable APP_PASSWORD AUTH_SALT : string.

Local Definition authed (cookies : cookie_jar) : bool :=
  is_authenticated hmac_sha256_hex APP_PASSWORD AUTH_SALT cookies.

Definition api_meta (cookies : cookie_jar) := require_auth_then (authed cookies) meta.
Definition api_suggest (cookies : cookie_jar) (q : pystr) (limit : Z) :=
  require_auth_then (authed cookies) (suggest U RE q limit).
Definition api_lookup (cookies : cookie_jar) (name : pystr) :=
  require_auth_then (authed cookies) (lookup U RE name).
Definition api_reload (cookies : cookie_jar) :=
  require_auth_then (authed cookies) (reload_ds U df_sample FORCE_NAME_COL DATA).

End Routes.

(** The client side of a response: a browser stores a [Set-Cookie] and drops
    a deleted cookie. *)
Definition store_cookies (jar : cookie_jar) (resp : response) : cookie_jar :=
  match resp with
  | Redirect _ _ (SetCookie n v _ _ _ _) => <[n := v]> jar
  | Redirect _ _ (DeleteCookie n) => delete n jar
  | _ => jar
  end.

(** * Theorems *)

Ltac zdec :=
  repeat match goal with
         | |- context [Z.eqb ?a ?b] => destruct (Z.eqb_spec a b)
         | H : context [Z.eqb ?a ?b] |- _ => destruct (Z.eqb_spec a b)
         | |- context [Z.leb ?a ?b] => destruct (Z.leb_spec a b)
         | H : context [Z.leb ?a ?b] |- _ => destruct (Z.leb_spec a b)
         | |- context [Z.ltb ?a ?b] => destruct (Z.ltb_spec a b)
         | H : context [Z.ltb ?a ?b] |- _ => destruct (Z.ltb_spec a b)
         end; simpl in *; try lia.

(** ** Normalization *)

Example strip_marks_cafe :
  strip_marks ucd_fragment [67; 97; 102; 233] = ustr "cafe".
Proof. vm_compute. reflexivity. Qed.

Example strip_marks_trim :
  strip_marks ucd_fragment (ustr "  Amit KUMAR ") = ustr "amit kumar".
Proof. vm_compute. reflexivity. Qed.

Lemma lstrip_idem (s : pystr) : lstrip (lstrip s) = lstrip s.
Proof.
  induction s as [|c r IH]; simpl; [reflexivity|].
  destruct (py_isspace c) eqn:E; [exact IH|]. simpl. rewrite E. reflexivity.
Qed.

Lemma lstrip_snoc (l : pystr) (a : Z) :
  py_isspace a = false -> lstrip (l ++ [a]) = lstrip l ++ [a].
Proof.
  intros Ha. induction l as [|x l IH]; simpl.
  - rewrite Ha. reflexivity.
  - destruct (py_isspace x); [exact IH|reflexivity].
Qed.

Lemma lstrip_shape (s : pystr) :
  lstrip s = [] \/ exists a v, lstrip s = a :: v /\ py_isspace a = false.
Proof.
  induction s as [|c r IH]; simpl; [left; reflexivity|].
  destruct (py_isspace c) eqn:E; [exact IH|right; eauto].
Qed.

Lemma rstrip_cons (a : Z) (v : pystr) :
  py_isspace a = false -> rev (lstrip (rev (a :: v))) = a :: rev (lstrip (rev v)).
Proof.
  intros Ha. simpl. rewrite lstrip_snoc by exact Ha.
  rewrite rev_app_distr. reflexivity.
Qed.

Lemma py_strip_idem (s : pystr) : py_strip (py_strip s) = py_strip s.
Proof.
  unfold py_strip.
  destruct (lstrip_shape s) as [E | (a & v & E & Ha)]; rewrite E; [reflexivity|].
  rewrite (rstrip_cons a v Ha). simpl lstrip at 2. rewrite Ha.
  rewrite (rstrip_cons a _ Ha). rewrite rev_involutive, lstrip_idem. reflexivity.
Qed.

Lemma in_lstrip (y : Z) (s : pystr) : In y (lstrip s) -> In y s.
Proof.
  induction s as [|c r IH]; simpl; [tauto|].
  destruct (py_isspace c); simpl; tauto.
Qed.

Lemma in_py_strip (y : Z) (s : pystr) : In y (py_strip s) -> In y s.
Proof.
  unfold py_strip. intros H.
  apply in_rev, in_lstrip, in_rev, in_lstrip in H. exact H.
Qed.

Section Normalization.
Variable U : ucd.

Local Abbreviation cle := (ccc_le U).

Lemma in_insert_ccc (y c : Z) (l : list Z) : In y (insert_ccc U c l) -> y = c \/ In y l.
Proof.
  induction l as [|x l IH]; simpl; [intuition congruence|].
  destruct (u_ccc U c <? u_ccc U x); simpl; [intuition congruence|].
  intros [H|H]; [tauto|]. destruct (IH H); tauto.
Qed.

Lemma in_fold_insert (y : Z) (l acc : list Z) :
  In y (fold_left (fun acc c => insert_ccc U c acc) l acc) -> In y acc \/ In y l.
Proof.
  revert acc. induction l as [|c l IH]; intros acc H; simpl in *; [tauto|].
  destruct (IH _ H) as [H1|H1]; [|tauto].
  destruct (in_insert_ccc _ _ _ H1); subst; tauto.
Qed.

Lemma in_canon_go (y : Z) (s run : list Z) :
  In y (canon_go U run s) -> In y run \/ In y s.
Proof.
  revert run. induction s as [|c s IH]; intros run H; simpl in *.
  - unfold sort_run in H. destruct (in_fold_insert _ _ _ H); simpl in *; tauto.
  - destruct (u_ccc U c =? 0).
    + apply in_app_or in H as [H|[H|H]].
      * unfold sort_run in H. destruct (in_fold_insert _ _ _ H); simpl in *; tauto.
      * tauto.
      * destruct (IH _ H); simpl in *; tauto.
    + destruct (IH _ H) as [H1|H1]; [|tauto].
      apply in_app_or in H1 as [H1|[H1|[]]]; subst; tauto.
Qed.

Lemma in_lower_go (y : Z) (s pre : list Z) :
  In y (lower_go U pre s) ->
  exists d, In d s /\
    ((d <> 931 /\ In y (u_lowmap U d)) \/ (d = 931 /\ (y = 962 \/ y = 963))).
Proof.
  revert pre. induction s as [|c s IH]; intros pre H; simpl in *; [tauto|].
  apply in_app_or in H as [H|H].
  - exists c. split; [left; reflexivity|]. revert H.
    destruct (Z.eqb_spec c 931) as [E|E]; intros H.
    + right. split; [exact E|]. destruct (_ && _); simpl in H; intuition congruence.
    + left. tauto.
  - destruct (IH _ H) as (d & Hd & Hy). exists d. tauto.
Qed.

Lemma insert_ccc_last (c : Z) (l : list Z) :
  (forall x, In x l -> cle x c) -> insert_ccc U c l = l ++ [c].
Proof.
  induction l as [|x l IH]; intros H; simpl; [reflexivity|].
  destruct (Z.ltb_spec (u_ccc U c) (u_ccc U x)) as [Hlt|_].
  - exfalso. specialize (H x (or_introl eq_refl)). unfold ccc_le in H. lia.
  - rewrite IH; [reflexivity|]. intros y Hy. apply H. right. exact Hy.
Qed.

Lemma fold_insert_sorted (l acc : list Z) :
  (forall x y, In x acc -> In y l -> cle x y) -> Sorted cle l ->
  fold_left (fun acc c => insert_ccc U c acc) l acc = acc ++ l.
Proof.
  revert acc. induction l as [|c l IH]; intros acc Hle Hs; simpl.
  - rewrite app_nil_r. reflexivity.
  - assert (Hss : StronglySorted cle (c :: l)).
    { apply Sorted_StronglySorted; [|exact Hs]. intros a b d; unfold ccc_le; lia. }
    apply StronglySorted_inv in Hss as [_ Hall].
    rewrite insert_ccc_last by (intros x Hx; apply Hle; simpl; tauto).
    rewrite IH.
    + rewrite <- app_assoc. reflexivity.
    + intros x y Hx Hy. apply in_app_or in Hx as [Hx|[Hx|[]]].
      * apply Hle; simpl; tauto.
      * subst. rewrite List.Forall_forall in Hall. apply Hall. exact Hy.
    + apply Sorted_inv in Hs. tauto.
Qed.

Lemma canon_ordered_tail (a : Z) (l : list Z) :
  canon_ordered U (a :: l) = true -> canon_ordered U l = true.
Proof.
  destruct l as [|b l]; simpl; [reflexivity|].
  intros H. apply andb_prop in H. tauto.
Qed.

Lemma canon_ordered_app_r (l1 l2 : list Z) :
  canon_ordered U (l1 ++ l2) = true -> canon_ordered U l2 = true.
Proof.
  induction l1 as [|a l1 IH]; simpl; [tauto|].
  intros H. apply IH. apply (canon_ordered_tail a). exact H.
Qed.

Lemma canon_ordered_app_l (l1 l2 : list Z) :
  canon_ordered U (l1 ++ l2) = true -> canon_ordered U l1 = true.
Proof.
  induction l1 as [|a l1 IH]; [reflexivity|].
  destruct l1 as [|b l1]; [reflexivity|].
  simpl. intros H. apply andb_prop in H as [H1 H2].
  rewrite H1. simpl. apply IH. exact H2.
Qed.

Lemma ordered_sorted (l : list Z) :
  Forall (fun c => u_ccc U c <> 0) l -> canon_ordered U l = true -> Sorted cle l.
Proof.
  induction l as [|a l IH]; intros Hnz Ho; [constructor|].
  inversion Hnz as [|? ? Ha Hl]; subst.
  constructor.
  - apply IH; [exact Hl|]. exact (canon_ordered_tail a l Ho).
  - destruct l as [|b l]; constructor.
    inversion Hl as [|? ? Hb _]; subst.
    simpl in Ho. apply andb_prop in Ho as [Ho _]. unfold ccc_le. zdec.
Qed.

Lemma sort_run_ordered (run : list Z) :
  Forall (fun c => u_ccc U c <> 0) run -> canon_ordered U run = true -> sort_run U run = run.
Proof.
  intros Hnz Ho. unfold sort_run.
  rewrite fold_insert_sorted; [reflexivity| |].
  - intros x y [].
  - apply ordered_sorted; assumption.
Qed.

Lemma canon_go_ordered (s run : list Z) :
  Forall (fun c => u_ccc U c <> 0) run -> canon_ordered U (run ++ s) = true ->
  canon_go U run s = run ++ s.
Proof.
  revert run. induction s as [|c s IH]; intros run Hnz Ho; simpl.
  - rewrite app_nil_r in *. apply sort_run_ordered; assumption.
  - destruct (Z.eqb_spec (u_ccc U c) 0) as [E|E].
    + rewrite sort_run_ordered; [| exact Hnz | exact (canon_ordered_app_l _ _ Ho)].
      rewrite (IH []); [reflexivity | constructor |].
      apply canon_ordered_app_r in Ho. exact (canon_ordered_tail c s Ho).
    + rewrite IH.
      * rewrite <- app_assoc. reflexivity.
      * apply Forall_app. split; [exact Hnz|]. constructor; [exact E|constructor].
      * rewrite <- app_assoc. exact Ho.
Qed.

End Normalization.

Section Idempotence.
Variable U : ucd.

Lemma flat_map_decomp_fixed (y : pystr) :
  (forall c, In c y -> u_decomp U c = [c]) -> flat_map (u_decomp U) y = y.
Proof.
  induction y as [|c y IH]; intros H; simpl; [reflexivity|].
  rewrite H by (left; reflexivity). rewrite IH; [reflexivity|].
  intros d Hd. apply H. right. exact Hd.
Qed.

Lemma filter_no_marks (y : pystr) :
  (forall c, In c y -> u_is_mn U c = false) ->
  List.filter (fun ch => negb (u_is_mn U ch)) y = y.
Proof.
  induction y as [|c y IH]; intros H; simpl; [reflexivity|].
  rewrite H by (left; reflexivity). simpl. rewrite IH; [reflexivity|].
  intros d Hd. apply H. right. exact Hd.
Qed.

Lemma lower_go_fixed (y pre : pystr) :
  (forall c, In c y -> u_lowmap U c = [c] /\ c <> 931) -> lower_go U pre y = y.
Proof.
  revert pre. induction y as [|c y IH]; intros pre H; simpl; [reflexivity|].
  destruct (H c (or_introl eq_refl)) as [Hl Hc].
  destruct (Z.eqb_spec c 931) as [E|_]; [contradiction|].
  rewrite Hl, IH; [reflexivity|].
  intros d Hd. apply H. right. exact Hd.
Qed.

Hypothesis H_decomp : forall c d, In d (u_decomp U c) -> u_decomp U d = [d].
Hypothesis H_lower : forall c l, u_decomp U c = [c] -> u_is_mn U c = false ->
  c <> 931 -> In l (u_lowmap U c) -> lower_stable U l.
Hypothesis H_sigma : lower_stable U 962 /\ lower_stable U 963.

Lemma strip_marks_chars_stable (x : pystr) (c : Z) :
  In c (strip_marks U x) -> lower_stable U c.
Proof.
  unfold strip_marks, py_lower. intros H.
  apply in_py_strip in H.
  destruct (in_lower_go U _ _ _ H) as (d & Hd & Hc).
  apply filter_In in Hd as [Hd Hmn]. apply negb_true_iff in Hmn.
  unfold nfkd in Hd. destruct (in_canon_go U _ _ _ Hd) as [[]|Hd'].
  apply in_flat_map in Hd' as (e & _ & He).
  pose proof (H_decomp e d He) as Hdd.
  destruct Hc as [[Hne Hl]|[_ [-> | ->]]].
  - exact (H_lower d c Hdd Hmn Hne Hl).
  - exact (proj1 H_sigma).
  - exact (proj2 H_sigma).
Qed.

End Idempotence.

(** Whatever the rest of the tables, U+1D16D U+034F U+1D165 is a string
    on which [strip_marks] is not idempotent: the first pass drops the
    class-0 mark U+034F and leaves the two combining stems in decreasing
    class order, which the second pass reorders. *)
Lemma strip_marks_reorders_stems (U : ucd) :
  u_decomp U 119149 = [119149] -> u_decomp U 847 = [847] ->
  u_decomp U 119141 = [119141] ->
  u_ccc U 119149 = 226 -> u_ccc U 847 = 0 -> u_ccc U 119141 = 216 ->
  u_is_mn U 119149 = false -> u_is_mn U 847 = true -> u_is_mn U 119141 = false ->
  u_lowmap U 119149 = [119149] -> u_lowmap U 119141 = [119141] ->
  strip_marks U [119149; 847; 119141] = [119149; 119141] /\
  strip_marks U [119149; 119141] = [119141; 119149].
Proof.
  intros D1 D2 D3 C1 C2 C3 M1 M2 M3 L1 L3.
  unfold strip_marks, nfkd, py_lower, sort_run.
  repeat progress (try unfold sort_run; simpl;
    rewrite ?D1, ?D2, ?D3, ?C1, ?C2, ?C3, ?M1, ?M2, ?M3, ?L1, ?L3).
  split; reflexivity.
Qed.

Lemma frag_decomp_closed (c d : Z) : In d (frag_decomp c) -> frag_decomp d = [d].
Proof.
  unfold frag_decomp. destruct (Z.eqb_spec c 233) as [E|E]; simpl.
  - intros [<- | [<- | []]]; reflexivity.
  - intros [<- | []]. zdec. reflexivity.
Qed.

Lemma frag_lower_stable (c l : Z) :
  frag_decomp c = [c] -> frag_is_mn c = false -> c <> 931 ->
  In l (frag_lowmap c) -> lower_stable ucd_fragment l.
Proof.
  unfold lower_stable, frag_lowmap, frag_upper, frag_decomp, frag_is_mn; simpl.
  unfold frag_decomp, frag_is_mn, frag_lowmap, frag_upper.
  intros Hd Hm Hc Hl. zdec;
    destruct Hl as [<- | []]; zdec; repeat split; try reflexivity; try lia;
    zdec; try reflexivity; try congruence.
Qed.

Lemma frag_sigma_stable : lower_stable ucd_fragment 962 /\ lower_stable ucd_fragment 963.
Proof. unfold lower_stable. vm_compute. repeat split; discriminate. Qed.

(** C7 (as amended). Under the Unicode facts [H_decomp] (a decomposition
    is fully decomposed), [H_lower] (the lowercase of an undecomposable
    non-mark is an undecomposable non-mark, its own lowercase, not U+03A3)
    and [H_sigma] (the same for U+03C2 and U+03C3), which Unicode 14.0
    satisfies on every code point: normalizing a string twice gives the
    same result as once whenever the normalized form is in canonical order,
    i.e. has no two adjacent combining characters in decreasing combining
    class. *)
Theorem strip_marks_idempotent_if_ordered (U : ucd)
  (H_decomp : forall c d, In d (u_decomp U c) -> u_decomp U d = [d])
  (H_lower : forall c l, u_decomp U c = [c] -> u_is_mn U c = false ->
     c <> 931 -> In l (u_lowmap U c) -> lower_stable U l)
  (H_sigma : lower_stable U 962 /\ lower_stable U 963)
  (x : pystr) (H_ord : canon_ordered U (strip_marks U x) = true) :
  strip_marks U (strip_marks U x) = strip_marks U x.
Proof.
  pose proof (strip_marks_chars_stable U H_decomp H_lower H_sigma x) as Hs.
  set (y := strip_marks U x) in *.
  unfold strip_marks at 1, nfkd.
  rewrite flat_map_decomp_fixed by (intros c Hc; apply (Hs c Hc)).
  rewrite (canon_go_ordered U y []) by (constructor || exact H_ord). simpl app.
  rewrite filter_no_marks by (intros c Hc; apply (Hs c Hc)).
  unfold py_lower.
  rewrite lower_go_fixed
    by (intros c Hc; destruct (Hs c Hc) as (_ & _ & ? & ?); split; assumption).
  unfold y, strip_marks. apply py_strip_idem.
Qed.

Lemma strip_marks_idempotent_if_ordered_witness :
  canon_ordered ucd_fragment (strip_marks ucd_fragment [67; 97; 102; 233; 32; 931]) = true /\
  strip_marks ucd_fragment (strip_marks ucd_fragment [67; 97; 102; 233; 32; 931]) =
  strip_marks ucd_fragment [67; 97; 102; 233; 32; 931].
Proof.
  split.
  - vm_compute. reflexivity.
  - apply (strip_marks_idempotent_if_ordered ucd_fragment frag_decomp_closed
             frag_lower_stable frag_sigma_stable).
    vm_compute. reflexivity.
Defined.

(** C7 (counterexample). [normalize] is not idempotent on
    U+1D16D U+034F U+1D165: once normalized it is U+1D16D U+1D165, twice
    U+1D165 U+1D16D. *)
Lemma strip_marks_not_idempotent :
  strip_marks ucd_fragment (strip_marks ucd_fragment [119149; 847; 119141]) <>
  strip_marks ucd_fragment [119149; 847; 119141].
Proof.
  destruct (strip_marks_reorders_stems ucd_fragment) as [E1 E2]; try reflexivity.
  rewrite E1, E2. discriminate.
Qed.

(** ** Frame of the queries and failed reloads *)

Lemma suggest_state (U : ucd) (RE : re_engine) (q : pystr) (limit : Z) (st : ds_state) :
  snd (suggest U RE q limit st) = st.
Proof.
  unfold suggest, bindM, getM, needDF, retM, raiseM.
  destruct (DF st); [|reflexivity].
  destruct (strip_marks U q); [reflexivity|].
  destruct (re_compile RE _); reflexivity.
Qed.

Lemma lookup_state (U : ucd) (RE : re_engine) (name : pystr) (st : ds_state) :
  snd (lookup U RE name st) = st.
Proof.
  unfold lookup, bindM, getM, needDF, retM, raiseM.
  destruct (py_strip name); [reflexivity|].
  destruct (DF st); [|reflexivity].
  destruct (existsb id _); [reflexivity|].
  destruct (re_compile RE _); reflexivity.
Qed.

Lemma meta_state (st : ds_state) : snd (meta st) = st.
Proof.
  unfold meta, bindM, getM, needDF, retM, raiseM.
  destruct (DF st); reflexivity.
Qed.

(** C10. Any run of [suggest], [lookup] and [meta] calls, with any
    arguments and whatever they return or raise, leaves the state
    ([DF], [NAME_COL], [DISPLAY_COLS]) as it found it. *)
Theorem query_calls_preserve_state (U : ucd) (RE : re_engine)
  (cs : list query_call) (st : ds_state) :
  run_calls U RE cs st = st.
Proof.
  unfold run_calls. revert st.
  induction cs as [|c cs IH]; intros st; simpl; [reflexivity|].
  replace (run_call U RE c st) with st; [apply IH|].
  destruct c; simpl.
  - symmetry. apply suggest_state.
  - symmetry. apply lookup_state.
  - symmetry. apply meta_state.
Qed.

Lemma read_first_none (rd : string -> option frame) (es : list string) :
  (forall e, In e es -> rd e = None) -> read_first rd es = None.
Proof.
  induction es as [|e es IH]; intros H; simpl; [reflexivity|].
  rewrite H by (left; reflexivity). apply IH. intros e' He'. apply H. right. exact He'.
Qed.

(** C9. When the data file is missing, or no encoding reads it, [reload]
    raises and the state is exactly the one before the call. *)
Theorem reload_failure_keeps_state (U : ucd)
  (df_sample : Z -> nat -> list pystr -> list pystr) (force : option pystr)
  (src : source) (st : ds_state)
  (Hfail : src_exists src = false \/ (forall e, In e encs -> src_read src e = None)) :
  exists err, reload_ds U df_sample force src st = (Raise err, st).
Proof.
  unfold reload_ds, load_dataset, bindM.
  destruct Hfail as [Hx | Hr].
  - rewrite Hx. simpl. eexists. reflexivity.
  - destruct (src_exists src); simpl.
    + unfold read_csv_with_fallbacks. rewrite (read_first_none _ _ Hr).
      eexists. reflexivity.
    + eexists. reflexivity.
Qed.

Lemma reload_failure_keeps_state_witness :
  let st := loaded None [(ustr "Name", [ustr "Ravi"])] in
  let gone := {| src_exists := false; src_read := fun _ => None |} in
  (src_exists gone = false \/ (forall e, In e encs -> src_read gone e = None)) /\
  exists err, reload_ds ucd_fragment sample_prefix None gone st = (Raise err, st).
Proof.
  intros st gone. split.
  - left. reflexivity.
  - apply (reload_failure_keeps_state ucd_fragment sample_prefix None gone st).
    left. reflexivity.
Defined.

(** ** Name column *)

Lemma str_in_spec (x : pystr) (l : list pystr) : str_in x l = true <-> In x l.
Proof.
  unfold str_in, str_eqb. rewrite existsb_exists. split.
  - intros (y & Hy & E). apply bool_decide_eq_true in E. subst. exact Hy.
  - intros H. exists x. split; [exact H|]. apply bool_decide_eq_true. reflexivity.
Qed.

Lemma str_in_false (x : pystr) (l : list pystr) : str_in x l = false <-> ~ In x l.
Proof.
  rewrite <- str_in_spec. destruct (str_in x l); split; congruence || tauto.
Qed.

Section LowerMap.
Variable U : ucd.

Local Abbreviation step := (fun (m : gmap pystr pystr) c => <[py_lower U c := c]> m).

Lemma lower_map_fold_some (cols : list pystr) (m : gmap pystr pystr) (k c : pystr) :
  fold_left step cols m !! k = Some c ->
  (exists pre post, cols = pre ++ c :: post /\ py_lower U c = k /\
     forall d, In d post -> py_lower U d <> k) \/
  (m !! k = Some c /\ forall d, In d cols -> py_lower U d <> k).
Proof.
  revert m. induction cols as [|d cols IH]; intros m H; simpl in *.
  - right. split; [exact H | tauto].
  - destruct (IH _ H) as [(pre & post & E & Hc & Hp) | [Hm Hall]].
    + left. exists (d :: pre), post. rewrite E. split; [reflexivity|]. split; assumption.
    + rewrite lookup_insert in Hm. destruct (decide (py_lower U d = k)) as [Ek|Nk].
      * injection Hm as <-. left. exists [], cols. split; [reflexivity|]. split; assumption.
      * right. split; [exact Hm|]. intros e [<- | He]; [exact Nk | exact (Hall e He)].
Qed.

Lemma lower_map_fold_none (cols : list pystr) (m : gmap pystr pystr) (k : pystr) :
  fold_left step cols m !! k = None -> forall d, In d cols -> py_lower U d <> k.
Proof.
  revert m. induction cols as [|d cols IH]; intros m H e He; simpl in *; [contradiction|].
  destruct He as [<- | He].
  - intros Ek. clear IH.
    assert (Hin : forall cs (m' : gmap pystr pystr), is_Some (m' !! k) ->
              is_Some (fold_left step cs m' !! k)).
    { induction cs as [|c' cs IHc]; intros m' Hs; simpl; [exact Hs|].
      apply IHc. rewrite lookup_insert. destruct (decide _); [eauto | exact Hs]. }
    destruct (Hin cols (<[py_lower U d := d]> m)) as [v Hv].
    + rewrite Ek, lookup_insert_eq. eauto.
    + congruence.
  - exact (IH _ H e He).
Qed.

Lemma first_preferred_app (lm : gmap pystr pystr) (pre post : list pystr) (p : pystr) :
  (forall q, In q pre -> lm !! py_lower U q = None) ->
  first_preferred U lm (pre ++ p :: post) =
  match lm !! py_lower U p with Some c => Some c | None => first_preferred U lm post end.
Proof.
  induction pre as [|q pre IH]; intros H; simpl; [reflexivity|].
  rewrite H by (left; reflexivity). apply IH. intros q' Hq'. apply H. right. exact Hq'.
Qed.

Lemma first_preferred_none (lm : gmap pystr pystr) (cands : list pystr) :
  (forall q, In q cands -> lm !! py_lower U q = None) -> first_preferred U lm cands = None.
Proof.
  induction cands as [|q cands IH]; intros H; simpl; [reflexivity|].
  rewrite H by (left; reflexivity). apply IH. intros q' Hq'. apply H. right. exact Hq'.
Qed.

Lemma lower_map_absent (cols : list pystr) (q : pystr) :
  (forall d, In d cols -> py_lower U d <> py_lower U q) ->
  lower_map U cols !! py_lower U q = None.
Proof.
  intros H. unfold lower_map.
  destruct (fold_left _ cols ∅ !! py_lower U q) as [c|] eqn:E; [|reflexivity].
  destruct (lower_map_fold_some cols ∅ _ c E) as [(pre & post & Ec & Hc & _) | [Hm _]].
  - exfalso. apply (H c); [rewrite Ec; apply in_or_app; right; left; reflexivity | exact Hc].
  - rewrite lookup_empty in Hm. discriminate.
Qed.

End LowerMap.

Lemma pick_name_column_no_force (U : ucd) (smp : Z -> nat -> list pystr -> list pystr)
  (force : option pystr) (df : frame) :
  (forall f, force = Some f -> f <> [] -> ~ In f (df_columns df)) ->
  pick_name_column U smp force df =
  match first_preferred U (lower_map U (df_columns df)) PREFERRED_NAME_COLUMNS with
  | Some c => c
  | None =>
      match heuristic_go U smp df None (-1)%Q with
      | Some ((_ :: _) as c) => c
      | _ => List.hd [] (df_columns df)
      end
  end.
Proof.
  intros H. unfold pick_name_column. cbv zeta.
  destruct force as [[|a f]|]; try reflexivity.
  rewrite (proj2 (str_in_false _ _) (H (a :: f) eq_refl ltac:(discriminate))).
  reflexivity.
Qed.

(** C1 (as amended). [load_dataset] takes the first of the headers
    "Full Name (English)", "Full Name (Marathi)", "Full Name" that is a
    column (exact comparison); failing those, an override naming a column;
    failing that, for the first entry of [PREFERRED_NAME_COLUMNS] that equals
    some column case-insensitively, the last column with that lowercase
    name; failing that, the textiness heuristic. *)
Theorem name_col_resolution (U : ucd) (smp : Z -> nat -> list pystr -> list pystr)
  (force : option pystr) (df : frame) :
  let cols := df_columns df in
  let nc := choose_name_col U smp force df in
  (In (ustr "Full Name (English)") cols -> nc = ustr "Full Name (English)") /\
  (~ In (ustr "Full Name (English)") cols -> In (ustr "Full Name (Marathi)") cols ->
     nc = ustr "Full Name (Marathi)") /\
  (~ In (ustr "Full Name (English)") cols -> ~ In (ustr "Full Name (Marathi)") cols ->
     In (ustr "Full Name") cols -> nc = ustr "Full Name") /\
  (~ In (ustr "Full Name (English)") cols -> ~ In (ustr "Full Name (Marathi)") cols ->
   ~ In (ustr "Full Name") cols ->
     (forall f, force = Some f -> f <> [] -> In f cols -> nc = f) /\
     ((forall f, force = Some f -> f <> [] -> ~ In f cols) ->
        (forall pre p post, PREFERRED_NAME_COLUMNS = pre ++ p :: post ->
           (forall q d, In q pre -> In d cols -> py_lower U d <> py_lower U q) ->
           (exists d, In d cols /\ py_lower U d = py_lower U p) ->
           exists cpre cpost, cols = cpre ++ nc :: cpost /\
             py_lower U nc = py_lower U p /\
             forall d, In d cpost -> py_lower U d <> py_lower U p) /\
        ((forall q d, In q PREFERRED_NAME_COLUMNS -> In d cols -> py_lower U d <> py_lower U q) ->
           nc = match heuristic_go U smp df None (-1)%Q with
                | Some ((_ :: _) as c) => c
                | _ => List.hd [] cols
                end))).
Proof.
  intros cols nc. unfold nc, choose_name_col. fold cols.
  split; [|split; [|split]].
  - intros H. rewrite (proj2 (str_in_spec _ _) H). reflexivity.
  - intros H1 H2. rewrite (proj2 (str_in_false _ _) H1), (proj2 (str_in_spec _ _) H2).
    reflexivity.
  - intros H1 H2 H3.
    rewrite (proj2 (str_in_false _ _) H1), (proj2 (str_in_false _ _) H2),
      (proj2 (str_in_spec _ _) H3).
    reflexivity.
  - intros H1 H2 H3.
    rewrite (proj2 (str_in_false _ _) H1), (proj2 (str_in_false _ _) H2),
      (proj2 (str_in_false _ _) H3).
    split; [|intros Hno; rewrite (pick_name_column_no_force U smp force df Hno); split].
    + intros f -> Hne Hin. unfold pick_name_column. cbv zeta.
      destruct f as [|a f]; [contradiction|].
      fold cols. rewrite (proj2 (str_in_spec _ _) Hin). reflexivity.
    + intros pre p post Hpref Hpre Hex. fold cols. rewrite Hpref.
      rewrite first_preferred_app
        by (intros q Hq; apply lower_map_absent; intros d Hd; exact (Hpre q d Hq Hd)).
      destruct (lower_map U cols !! py_lower U p) as [c|] eqn:E.
      * unfold lower_map in E.
        destruct (lower_map_fold_some U cols ∅ _ c E) as [Hc | [Hm _]].
        -- exact Hc.
        -- rewrite lookup_empty in Hm. discriminate.
      * exfalso. unfold lower_map in E. destruct Hex as (d & Hd & Ed).
        exact (lower_map_fold_none U cols ∅ _ E d Hd Ed).
    + intros Hnone. fold cols.
      rewrite first_preferred_none; [reflexivity|].
      intros q Hq. apply lower_map_absent. intros d Hd. exact (Hnone q d Hq Hd).
Qed.

(** C1 (counterexample). With the columns "Full Name (English)" and
    "Voter Name" and the override "Voter Name", the loaded name column is
    "Full Name (English)", not the override. *)
Lemma name_col_override_not_first :
  let df := [(ustr "Full Name (English)", [ustr "Ravi"]); (ustr "Voter Name", [ustr "Ravi K"])] in
  In (ustr "Voter Name") (df_columns df) /\
  NAME_COL (loaded (Some (ustr "Voter Name")) df) = ustr "Full Name (English)".
Proof.
  intros df. split.
  - right. left. reflexivity.
  - vm_compute. reflexivity.
Qed.

(** ** Internal columns *)

Lemma rows_of_clean (df : frame) (mask : list bool) (r : row) (kv : pystr * pystr) :
  In r (rows_of df mask) -> In kv r -> is_internal (fst kv) = false.
Proof.
  unfold rows_of. intros Hr Hkv.
  apply in_map_iff in Hr as (i & <- & _).
  apply in_map_iff in Hkv as (p & <- & Hp).
  apply filter_In in Hp as [_ Hp]. apply negb_true_iff in Hp. exact Hp.
Qed.

Lemma lookup_ok_rows (U : ucd) (RE : re_engine) (name : pystr) (st st' : ds_state)
  (out : lookup_out) :
  lookup U RE name st = (Ok out, st') -> exists df mask, l_rows out = rows_of df mask.
Proof.
  unfold lookup, bindM, getM, needDF, retM, raiseM.
  destruct (py_strip name); [discriminate|].
  destruct (DF st) as [df|]; [|discriminate].
  destruct (existsb id _).
  - intros E. injection E as <- _. simpl. eauto.
  - destruct (re_compile RE _); [|discriminate].
    intros E. injection E as <- _. simpl. eauto.
Qed.

Lemma fold_append_if (b : list pystr -> pystr -> bool) (P : pystr -> Prop)
  (l acc : list pystr) :
  (forall a c, b a c = true -> P c) ->
  exists rest, fold_left (fun a c => if b a c then a ++ [c] else a) l acc = acc ++ rest /\
    forall x, In x rest -> In x l /\ P x.
Proof.
  intros HP. revert acc. induction l as [|c l IH]; intros acc; simpl.
  - exists []. split; [rewrite app_nil_r; reflexivity | intros _ []].
  - destruct (b acc c) eqn:E.
    + destruct (IH (acc ++ [c])) as (rest & Hr & Hp).
      exists (c :: rest). rewrite Hr, <- app_assoc. split; [reflexivity|].
      intros x [<- | Hx]; [split; [left; reflexivity | exact (HP _ _ E)]|].
      destruct (Hp x Hx). split; [right|]; assumption.
    + destruct (IH acc) as (rest & Hr & Hp). exists rest. split; [exact Hr|].
      intros x Hx. destruct (Hp x Hx). split; [right|]; assumption.
Qed.

Lemma display_preference_not_internal (c : pystr) :
  In c DISPLAY_COLS_PREFERENCE -> is_internal c = false.
Proof. intros H. repeat (destruct H as [<- | H]; [reflexivity|]). destruct H. Qed.

(** C5 (as amended). [meta] lists no column starting with "_", the rows of
    [lookup] have no such key, and [build_display_cols] lists the name
    column first and no other column starting with "_". *)
Theorem internal_columns_hidden (U : ucd) (RE : re_engine) :
  (forall st st' m, meta st = (Ok m, st') ->
     forall c, In c (m_columns m) -> is_internal c = false) /\
  (forall name st st' out, lookup U RE name st = (Ok out, st') ->
     forall r kv, In r (l_rows out) -> In kv r -> is_internal (fst kv) = false) /\
  (forall df name_col, exists rest,
     build_display_cols df name_col = name_col :: rest /\
     forall c, In c rest -> is_internal c = false).
Proof.
  split; [|split].
  - intros st st' m. unfold meta, bindM, getM, needDF, retM, raiseM.
    destruct (DF st) as [df|]; [|discriminate].
    intros E. injection E as <- _. simpl. intros c Hc.
    apply filter_In in Hc as [_ Hc]. apply negb_true_iff in Hc. exact Hc.
  - intros name st st' out H r kv Hr Hkv.
    destruct (lookup_ok_rows U RE name st st' out H) as (df & mask & E).
    rewrite E in Hr. exact (rows_of_clean df mask r kv Hr Hkv).
  - intros df name_col. unfold build_display_cols.
    destruct (fold_append_if
                (fun acc c => str_in c (df_columns df) && negb (str_in c acc))
                (fun _ => True) DISPLAY_COLS_PREFERENCE [name_col])
      as (rest1 & E1 & H1); [tauto|].
    rewrite E1.
    destruct (fold_append_if
                (fun acc c => negb (str_in c acc) && negb (is_internal c))
                (fun c => is_internal c = false) (df_columns df) ([name_col] ++ rest1))
      as (rest2 & E2 & H2).
    { intros a c Hb. apply andb_prop in Hb as [_ Hb]. apply negb_true_iff in Hb. exact Hb. }
    rewrite E2. exists (rest1 ++ rest2). split; [reflexivity|].
    intros c Hc. apply in_app_or in Hc as [Hc | Hc].
    + apply display_preference_not_internal. apply (H1 c Hc).
    + apply (H2 c Hc).
Qed.

(** C5 (counterexample). When the name column is "_voter" (here through
    the override), [DISPLAY_COLS] lists "_voter". *)
Lemma display_cols_show_internal_name_col :
  let df := [(ustr "_voter", [ustr "Ravi"]); (ustr "Age", [ustr "40"])] in
  In (ustr "_voter") (DISPLAY_COLS (loaded (Some (ustr "_voter")) df)) /\
  is_internal (ustr "_voter") = true.
Proof. intros df. vm_compute. split; [left; reflexivity | reflexivity]. Qed.

(** ** Matching with pandas' [str.contains] *)

(** When some row's [_name_key] equals the key, [lookup] returns exactly
    the rows whose [_name_key] equals it. *)
Lemma lookup_exact_first (U : ucd) (RE : re_engine) (name : pystr) (st : ds_state)
  (df : frame) :
  DF st = Some df -> py_strip name <> [] ->
  existsb id (List.map (str_eqb (py_lower U (py_strip name))) (df_get df NAME_KEY)) = true ->
  let rows := rows_of df (List.map (str_eqb (py_lower U (py_strip name))) (df_get df NAME_KEY)) in
  lookup U RE name st = (Ok {| l_count := length rows; l_rows := rows |}, st).
Proof.
  intros Hdf Hne Hex rows. unfold lookup, bindM, getM, needDF, retM.
  destruct (py_strip name) as [|a nm]; [contradiction|].
  rewrite Hdf. rewrite Hex. reflexivity.
Qed.

(** C2 (failing input). The query "t.k" normalizes to "t.k", which the
    normalized name "amit kumar" does not contain; [suggest] still returns
    "Amit Kumar", because "t.k" is matched as a regular expression. *)
Theorem suggest_query_is_regex :
  let st := loaded None [(ustr "Name", [ustr "Amit Kumar"; ustr "Ravi"])] in
  strip_marks ucd_fragment (ustr "t.k") = ustr "t.k" /\
  contains_sub (ustr "t.k") (strip_marks ucd_fragment (ustr "Amit Kumar")) = false /\
  fst (suggest ucd_fragment re_fragment (ustr "t.k") 100 st) = Ok [ustr "Amit Kumar"].
Proof. vm_compute. split; [reflexivity | split; reflexivity]. Qed.

(** C3 (failing input). No row is named "r.vi" and the lowercased name
    "ravi shankar" does not contain "r.vi", yet the fallback of [lookup]
    returns the "Ravi Shankar" row: the key is matched as a regular
    expression. *)
Theorem lookup_fallback_is_regex :
  let st := loaded None [(ustr "Name", [ustr "Ravi Shankar"; ustr "Amit Kumar"])] in
  contains_sub (ustr "r.vi") (ustr "ravi shankar") = false /\
  contains_sub (ustr "r.vi") (ustr "amit kumar") = false /\
  fst (lookup ucd_fragment re_fragment (ustr "r.vi") st) =
    Ok {| l_count := 1; l_rows := [[(ustr "Name", ustr "Ravi Shankar")]] |}.
Proof. vm_compute. split; [reflexivity | split; reflexivity]. Qed.

(** C4 (failing input). [lookup("(")] matches no row, but instead of an
    empty result it raises [re.error]; so does [suggest("(")]. A blank
    name raises the 400 error. *)
Theorem unbalanced_paren_raises :
  let st := loaded None [(ustr "Name", [ustr "Ravi"])] in
  fst (lookup ucd_fragment re_fragment (ustr "(") st) = Raise ReError /\
  fst (suggest ucd_fragment re_fragment (ustr "(") 100 st) = Raise ReError /\
  fst (lookup ucd_fragment re_fragment (ustr "  ") st) = Raise MissingName.
Proof. vm_compute. split; [reflexivity | split; reflexivity]. Qed.

(** ** Suggestions for an empty query *)

Lemma str_in_app_single (y x : pystr) (l : list pystr) :
  str_in y (l ++ [x]) = str_in y l || str_eqb y x.
Proof. unfold str_in. rewrite existsb_app. simpl. rewrite orb_false_r. reflexivity. Qed.

Lemma str_eqb_spec (a b : pystr) : str_eqb a b = true <-> a = b.
Proof. unfold str_eqb. apply bool_decide_eq_true. Qed.

Lemma in_combine_seq_ge {A} (l : list A) (k : nat) (y : A) (j : nat) :
  In (y, j) (combine l (seq k (length l))) -> (k <= j)%nat.
Proof.
  intros H. apply in_combine_r, in_seq in H. lia.
Qed.

Local Definition fdn_gen (pre l : list pystr) (k : nat) : list pystr :=
  List.map fst (List.filter
    (fun p => negb (str_eqb (fst p) []) && negb (str_in (fst p) (pre ++ firstn (snd p - k) l)))
    (combine l (seq k (length l)))).

Lemma fdn_gen_cons (pre : list pystr) (x : pystr) (l : list pystr) (k : nat) :
  fdn_gen pre (x :: l) k =
  (if negb (str_eqb x []) && negb (str_in x pre) then [x] else []) ++
  fdn_gen (pre ++ [x]) l (S k).
Proof.
  unfold fdn_gen. simpl. rewrite Nat.sub_diag. simpl. rewrite app_nil_r.
  assert (E : List.filter
      (fun p => negb (str_eqb (fst p) []) && negb (str_in (fst p) (pre ++ firstn (snd p - k) (x :: l))))
      (combine l (seq (S k) (length l))) =
    List.filter
      (fun p => negb (str_eqb (fst p) []) && negb (str_in (fst p) ((pre ++ [x]) ++ firstn (snd p - S k) l)))
      (combine l (seq (S k) (length l)))).
  { apply filter_ext_in. intros [y j] Hyj. simpl.
    apply in_combine_seq_ge in Hyj.
    replace (j - k)%nat with (S (j - S k)) by lia. simpl.
    rewrite <- app_assoc. reflexivity. }
  rewrite E. destruct (negb (str_eqb x []) && negb (str_in x pre)); reflexivity.
Qed.

Lemma dedup_nonempty_fdn (l pre seen : list pystr) (k : nat) :
  (forall y, y <> [] -> str_in y seen = str_in y pre) ->
  dedup_go seen (List.filter (fun x => negb (str_eqb x [])) l) = fdn_gen pre l k.
Proof.
  revert pre seen k. induction l as [|x l IH]; intros pre seen k Hs.
  - reflexivity.
  - rewrite fdn_gen_cons. simpl.
    destruct (str_eqb x []) eqn:Ex; simpl.
    + apply IH. intros y Hy. rewrite str_in_app_single, Hs by exact Hy.
      destruct (str_eqb y x) eqn:Ey; [|rewrite orb_false_r; reflexivity].
      apply str_eqb_spec in Ey. apply str_eqb_spec in Ex. congruence.
    + assert (Hx : x <> []) by (intros ->; discriminate).
      rewrite (Hs x Hx).
      destruct (str_in x pre) eqn:Ein; simpl.
      * apply IH. intros y Hy. rewrite str_in_app_single, Hs by exact Hy.
        destruct (str_eqb y x) eqn:Ey; [|rewrite orb_false_r; reflexivity].
        apply str_eqb_spec in Ey. subst. rewrite Ein. reflexivity.
      * f_equal. apply IH. intros y Hy. rewrite str_in_app_single. simpl.
        rewrite Hs by exact Hy. unfold str_eqb.
        destruct (bool_decide (y = x)) eqn:Ey; simpl.
        -- rewrite orb_true_r. reflexivity.
        -- rewrite orb_false_r. reflexivity.
Qed.

Lemma drop_duplicates_nonempty (names : list pystr) :
  drop_duplicates (List.filter (fun x => negb (str_eqb x [])) names) =
  first_distinct_nonempty names.
Proof.
  unfold drop_duplicates.
  rewrite (dedup_nonempty_fdn names [] [] 0) by reflexivity.
  unfold fdn_gen, first_distinct_nonempty. f_equal. apply filter_ext_in.
  intros [y j] _. simpl. rewrite Nat.sub_0_r. reflexivity.
Qed.

(** C8 (amended). For a query that is empty after normalization, [suggest]
    returns the distinct non-empty trimmed values of the name column, in row
    order with the first occurrence kept, cut by [Series.head(limit)]: for a
    non-negative [limit] the first [limit] of them, for a negative [limit]
    all of them but the last [-limit]. *)
Theorem suggest_empty_query_first_distinct (U : ucd) (RE : re_engine) (q : pystr)
    (limit : Z) (st : ds_state) (df : frame)
    (Hdf : DF st = Some df) (Hq : strip_marks U q = []) :
  let D := first_distinct_nonempty (List.map py_strip (df_get df (NAME_COL st))) in
  (0 <= limit -> fst (suggest U RE q limit st) = Ok (firstn (Z.to_nat limit) D)) /\
  (limit < 0 -> fst (suggest U RE q limit st) = Ok (firstn (length D - Z.to_nat (- limit)) D)).
Proof.
  intros D.
  assert (E : fst (suggest U RE q limit st) = Ok (head limit D)).
  { unfold suggest, bindM, getM, needDF, retM. rewrite Hdf, Hq. simpl.
    unfold D. rewrite drop_duplicates_nonempty. reflexivity. }
  rewrite E. unfold head. split; intros Hl.
  - destruct (Z.leb_spec 0 limit); [reflexivity | lia].
  - destruct (Z.leb_spec 0 limit); [lia | reflexivity].
Qed.

Lemma suggest_empty_query_first_distinct_witness :
  let df := [(ustr "Name", [ustr " Ravi"; ustr ""; ustr "Amit"; ustr "Ravi "; ustr "Sita"])] in
  let st := {| DF := Some df; NAME_COL := ustr "Name"; DISPLAY_COLS := [] |} in
  DF st = Some df /\ strip_marks ucd_fragment (ustr "  ") = [] /\
  fst (suggest ucd_fragment re_fragment (ustr "  ") 2 st) = Ok [ustr "Ravi"; ustr "Amit"].
Proof.
  intros df st.
  assert (Hdf : DF st = Some df) by reflexivity.
  assert (Hq : strip_marks ucd_fragment (ustr "  ") = []) by (vm_compute; reflexivity).
  split; [exact Hdf | split; [exact Hq |]].
  destruct (suggest_empty_query_first_distinct ucd_fragment re_fragment (ustr "  ") 2 st df Hdf Hq)
    as [H _].
  rewrite H by lia. vm_compute. reflexivity.
Defined.

(** C8 (counterexample). With [limit = -1] and two distinct names the
    empty-query [suggest] returns one name, while the first [-1] values of a
    list, read as a count, are none. *)
Theorem suggest_negative_limit_nonempty :
  let st := loaded None [(ustr "Name", [ustr "Ravi"; ustr "Amit"])] in
  fst (suggest ucd_fragment re_fragment [] (-1) st) = Ok [ustr "Ravi"] /\
  firstn (Z.to_nat (-1)) [ustr "Ravi"; ustr "Amit"] = [].
Proof. vm_compute. split; reflexivity. Qed.

(** ** Identifier-like columns *)

Lemma mean_ge_half (xs : list Q) :
  ge_half (py_mean xs) = true <->
  xs <> [] /\ (inject_Z (Z.of_nat (length xs)) <= 2 * fold_right Qplus 0 xs)%Q.
Proof.
  unfold ge_half, py_mean. destruct xs as [|x xs'] eqn:Exs.
  - split; [discriminate | intros [H _]; congruence].
  - rewrite <- Exs. set (n := inject_Z (Z.of_nat (length xs))).
    set (t := fold_right Qplus 0%Q xs).
    assert (Hn : (0 < n)%Q).
    { unfold n. rewrite Exs. simpl length. rewrite Nat2Z.inj_succ.
      change 0%Q with (inject_Z 0). rewrite <- Zlt_Qlt. lia. }
    rewrite Qle_bool_iff. split.
    + intros H. split; [rewrite Exs; discriminate|].
      apply (Qmult_le_r _ _ n) in H; [|exact Hn].
      assert (E : (t / n * n == t)%Q) by (field; intros Z; rewrite Z in Hn; discriminate).
      rewrite E in H. lra.
    + intros [_ H]. apply (Qmult_le_r _ _ n); [exact Hn|].
      assert (E : (t / n * n == t)%Q) by (field; intros Z; rewrite Z in Hn; discriminate).
      rewrite E. lra.
Qed.

Lemma sum_indicator (f : pystr -> bool) (s : list pystr) :
  (fold_right Qplus 0 (List.map (fun x => if f x then 1 else 0) s) ==
   inject_Z (Z.of_nat (length (List.filter f s))))%Q.
Proof.
  induction s as [|x s IH]; [reflexivity|]. simpl.
  rewrite IH. destruct (f x); simpl length.
  - rewrite Nat2Z.inj_succ, <- Z.add_1_l, inject_Z_plus. reflexivity.
  - lra.
Qed.

Lemma nat_le_twice_Q (a b : nat) :
  (inject_Z (Z.of_nat a) <= 2 * inject_Z (Z.of_nat b))%Q <-> (a <= 2 * b)%nat.
Proof.
  change 2%Q with (inject_Z 2). rewrite <- inject_Z_mult, <- Zle_Qle. lia.
Qed.

Lemma Qsum_nonneg (xs : list Q) :
  (forall x, In x xs -> 0 <= x)%Q -> (0 <= fold_right Qplus 0 xs)%Q.
Proof.
  induction xs as [|x xs IH]; intros H; simpl; [lra|].
  assert (0 <= x)%Q by (apply H; left; reflexivity).
  assert (0 <= fold_right Qplus 0 xs)%Q by (apply IH; intros y Hy; apply H; right; exact Hy).
  lra.
Qed.

Lemma ratio_nonneg (k n : nat) : (0 <= ratio k n)%Q.
Proof.
  unfold ratio, Qdiv. apply Qmult_le_0_compat.
  - change 0%Q with (inject_Z 0). rewrite <- Zle_Qle. lia.
  - apply Qinv_le_0_compat. change 0%Q with (inject_Z 0). rewrite <- Zle_Qle. lia.
Qed.

Lemma alpha_ratio_nonneg (U : ucd) (x : pystr) : (0 <= alpha_ratio U x)%Q.
Proof. unfold alpha_ratio. destruct x; [lra | apply ratio_nonneg]. Qed.

Lemma mean_nonneg (xs : list Q) (m : Q) :
  (forall x, In x xs -> 0 <= x)%Q -> py_mean xs = Some m -> (0 <= m)%Q.
Proof.
  intros H E. unfold py_mean in E. destruct xs as [|x xs']; [discriminate|].
  injection E as <-. unfold Qdiv. apply Qmult_le_0_compat.
  - exact (Qsum_nonneg (x :: xs') H).
  - apply Qinv_le_0_compat. change 0%Q with (inject_Z 0). rewrite <- Zle_Qle. lia.
Qed.

Section Heuristic.
Variable U : ucd.
Variable smp : Z -> nat -> list pystr -> list pystr.

Lemma heuristic_go_result (cols : frame) (best : option pystr) (bs : Q) :
  heuristic_go U smp cols best bs = best \/
  exists c ser, heuristic_go U smp cols best bs = Some c /\ In (c, ser) cols /\
                is_probably_epic U smp ser = false.
Proof.
  revert best bs. induction cols as [|[c ser] cols IH]; intros best bs; simpl; [left; reflexivity|].
  destruct (is_probably_epic U smp ser) eqn:Ep.
  - destruct (IH best bs) as [H | (c' & s' & H1 & H2 & H3)]; [left; exact H|].
    right. exists c', s'. auto.
  - destruct (col_score U smp ser) as [score|].
    + destruct (negb (Qle_bool score bs)).
      * destruct (IH (Some c) score) as [H | (c' & s' & H1 & H2 & H3)].
        -- right. exists c, ser. auto.
        -- right. exists c', s'. auto.
      * destruct (IH best bs) as [H | (c' & s' & H1 & H2 & H3)]; [left; exact H|].
        right. exists c', s'. auto.
    + destruct (IH best bs) as [H | (c' & s' & H1 & H2 & H3)]; [left; exact H|].
      right. exists c', s'. auto.
Qed.

Lemma heuristic_go_some (cols : frame) (best : option pystr) (bs : Q) :
  best <> None \/
  ((bs < 0)%Q /\ exists c ser sc, In (c, ser) cols /\ is_probably_epic U smp ser = false /\
                                col_score U smp ser = Some sc /\ (0 <= sc)%Q) ->
  heuristic_go U smp cols best bs <> None.
Proof.
  revert best bs. induction cols as [|[c ser] cols IH]; intros best bs H; simpl.
  - destruct H as [H | (_ & c & ser & sc & [] & _)]. exact H.
  - destruct (is_probably_epic U smp ser) eqn:Ep.
    + apply IH. destruct H as [H | (Hb & c' & s' & sc & [E | Hin] & He & Hs & Hsc)]; [left; exact H| |].
      * injection E as <- <-. congruence.
      * right. split; [exact Hb|]. exists c', s', sc. auto.
    + destruct (col_score U smp ser) as [score|] eqn:Es.
      * destruct (Qle_bool score bs) eqn:Eq; simpl.
        -- apply IH. destruct H as [H | (Hb & c' & s' & sc & [E | Hin] & He & Hs & Hsc)];
             [left; exact H| |].
           ++ injection E as <- <-. rewrite Es in Hs. injection Hs as <-.
              apply Qle_bool_iff in Eq. lra.
           ++ right. split; [exact Hb|]. exists c', s', sc. auto.
        -- apply IH. left. discriminate.
      * apply IH. destruct H as [H | (Hb & c' & s' & sc & [E | Hin] & He & Hs & Hsc)]; [left; exact H| |].
        -- injection E as <- <-. congruence.
        -- right. split; [exact Hb|]. exists c', s', sc. auto.
Qed.

Hypothesis smp_length : forall seed n l, (n <= length l)%nat -> length (smp seed n l) = n.

Lemma col_score_nonempty (ser : list pystr) :
  ser <> [] -> exists sc, col_score U smp ser = Some sc /\ (0 <= sc)%Q.
Proof.
  intros Hne. unfold col_score.
  destruct (py_mean (List.map (alpha_ratio U) (smp 1 (Nat.min (length ser) 300) ser))) as [m|] eqn:E.
  - exists m. split; [reflexivity|]. eapply mean_nonneg; [|exact E].
    intros x Hx. apply in_map_iff in Hx. destruct Hx as (y & <- & _). apply alpha_ratio_nonneg.
  - exfalso. unfold py_mean in E.
    destruct (List.map (alpha_ratio U) _) eqn:Em; [|discriminate].
    apply map_eq_nil in Em.
    assert (Hl : length (smp 1 (Nat.min (length ser) 300) ser) = Nat.min (length ser) 300)
      by (apply smp_length; lia).
    rewrite Em in Hl. destruct ser; [congruence|]. simpl in Hl. lia.
Qed.

Lemma epic_empty : is_probably_epic U smp [] = false.
Proof.
  unfold is_probably_epic, digit_rate. simpl.
  assert (Hl : length (smp 0 0 []) = 0%nat) by (apply smp_length; lia).
  destruct (smp 0 0 []); [reflexivity | discriminate].
Qed.

End Heuristic.

Lemma in_frame_unique (df : frame) (c : pystr) (a b : list pystr) :
  NoDup (df_columns df) -> In (c, a) df -> In (c, b) df -> a = b.
Proof.
  unfold df_columns. induction df as [|[c' v] df IH]; intros Hnd Ha Hb; [destruct Ha|].
  simpl in Hnd. inversion Hnd as [|x l Hnin Hnd']; subst.
  destruct Ha as [Ea | Ha]; destruct Hb as [Eb | Hb].
  - congruence.
  - injection Ea as E1 E2. subst. exfalso. apply Hnin.
    apply list_elem_of_In, in_map_iff. eexists; split; [|exact Hb]; reflexivity.
  - injection Eb as E1 E2. subst. exfalso. apply Hnin.
    apply list_elem_of_In, in_map_iff. eexists; split; [|exact Ha]; reflexivity.
  - apply IH; assumption.
Qed.

(** C6. A column is identifier-like exactly when at least half of ALL its
    cells fully match [[A-Z]{2,4}[0-9]{5,8}], or the mean digit ratio of the
    sample of [min(len, 300)] cells drawn with seed 0 is at least one half.
    With no header hint (none of the fixed headers, no applicable override,
    no priority entry), as long as some column is not identifier-like, the
    chosen name column is not identifier-like either. The frame is one read
    from a CSV file: distinct, non-empty column names of a common length; the
    sample draws the requested number of cells. *)
Theorem epic_columns_excluded (U : ucd) (smp : Z -> nat -> list pystr -> list pystr) :
  (forall s : list pystr,
     is_probably_epic U smp s = true <->
     (s <> [] /\ (length s <= 2 * length (List.filter epic_fullmatch s))%nat) \/
     (let sm := smp 0 (Nat.min (length s) 300) s in
      sm <> [] /\
      (inject_Z (Z.of_nat (length sm)) <= 2 * fold_right Qplus 0 (List.map (digit_ratio U) sm))%Q)) /\
  ((forall seed n l, (n <= length l)%nat -> length (smp seed n l) = n) ->
   forall (force : option pystr) (df : frame),
   let cols := df_columns df in
   NoDup cols -> (forall c, In c cols -> c <> []) ->
   (forall c ser, In (c, ser) df -> length ser = df_len df) ->
   ~ In (ustr "Full Name (English)") cols -> ~ In (ustr "Full Name (Marathi)") cols ->
   ~ In (ustr "Full Name") cols ->
   (forall f, force = Some f -> f <> [] -> ~ In f cols) ->
   (forall q d, In q PREFERRED_NAME_COLUMNS -> In d cols -> py_lower U d <> py_lower U q) ->
   (exists c ser, In (c, ser) df /\ is_probably_epic U smp ser = false) ->
   forall ser, In (choose_name_col U smp force df, ser) df -> is_probably_epic U smp ser = false).
Proof.
  split.
  - intros s. unfold is_probably_epic, match_rate, digit_rate. rewrite orb_true_iff.
    rewrite !mean_ge_half, sum_indicator, nat_le_twice_Q, length_map, length_map.
    split; (intros [[Hn Hl] | [Hn Hl]]; [left | right]); split; try exact Hl.
    + intros ->. apply Hn. reflexivity.
    + intros E. apply Hn. rewrite E. reflexivity.
    + intros E. apply Hn. destruct s; [reflexivity | discriminate].
    + intros E. apply Hn. apply map_eq_nil in E. exact E.
  - intros Hs force df cols Hnd Hne Hlen H1 H2 H3 Hf Hp (c0 & s0 & Hin0 & He0) ser Hin.
    unfold choose_name_col in Hin. fold cols in Hin.
    rewrite (proj2 (str_in_false _ _) H1), (proj2 (str_in_false _ _) H2),
      (proj2 (str_in_false _ _) H3) in Hin.
    rewrite (pick_name_column_no_force U smp force df Hf) in Hin. fold cols in Hin.
    rewrite first_preferred_none in Hin
      by (intros q Hq; apply lower_map_absent; intros d Hd; exact (Hp q d Hq Hd)).
    destruct (Nat.eq_dec (length s0) 0%nat) as [Z0 | NZ].
    + assert (Hser : ser = []).
      { apply length_zero_iff_nil. rewrite (Hlen _ _ Hin), <- (Hlen _ _ Hin0). exact Z0. }
      subst ser. apply epic_empty. exact Hs.
    + assert (Hne0 : s0 <> []) by (intros ->; apply NZ; reflexivity).
      destruct (col_score_nonempty U smp Hs s0 Hne0) as (sc & Hsc & Hsc0).
      assert (Hsome : heuristic_go U smp df None (-1)%Q <> None).
      { apply heuristic_go_some. right. split; [lra|]. exists c0, s0, sc. auto. }
      destruct (heuristic_go_result U smp df None (-1)%Q) as [E | (c & s1 & E & Hin1 & He1)];
        [contradiction|].
      rewrite E in Hin.
      assert (Hc : c <> []).
      { apply Hne. unfold cols, df_columns. apply in_map_iff. exists (c, s1). auto. }
      destruct c as [|a c']; [contradiction|].
      rewrite (in_frame_unique df _ ser s1 Hnd Hin Hin1). exact He1.
Qed.

Lemma epic_columns_excluded_witness :
  let df := [(ustr "Id", [ustr "ABC1234567"; ustr "XYZ7654321"]);
             (ustr "Nm", [ustr "Ravi"; ustr "Amit"])] in
  choose_name_col ucd_fragment sample_prefix None df = ustr "Nm" /\
  is_probably_epic ucd_fragment sample_prefix [ustr "ABC1234567"; ustr "XYZ7654321"] = true /\
  (forall ser, In (choose_name_col ucd_fragment sample_prefix None df, ser) df ->
     is_probably_epic ucd_fragment sample_prefix ser = false).
Proof.
  intros df. split; [vm_compute; reflexivity | split; [vm_compute; reflexivity |]].
  apply (proj2 (epic_columns_excluded ucd_fragment sample_prefix)).
  - intros seed n l Hn. unfold sample_prefix. rewrite length_firstn. lia.
  - constructor.
    + intros H. apply list_elem_of_In in H. vm_compute in H. destruct H as [E | []]. discriminate.
    + constructor; [intros H; apply list_elem_of_In in H; destruct H | constructor].
  - intros c [<- | [<- | []]]; vm_compute; discriminate.
  - intros c ser [E | [E | []]]; injection E as <- <-; reflexivity.
  - apply str_in_false. vm_compute. reflexivity.
  - apply str_in_false. vm_compute. reflexivity.
  - apply str_in_false. vm_compute. reflexivity.
  - intros f E. discriminate.
  - intros q d Hq Hd. revert q Hq. apply List.Forall_forall.
    destruct Hd as [<- | [<- | []]]; vm_compute; repeat constructor; discriminate.
  - exists (ustr "Nm"), [ustr "Ravi"; ustr "Amit"]. split; [right; left; reflexivity|].
    vm_compute. reflexivity.
Defined.

(** * Further properties of the server *)

(** ** Authentication *)

Lemma is_authenticated_token (h : string -> string -> string) (pw salt : string)
  (jar : cookie_jar) :
  make_token h pw salt <> EmptyString ->
  jar !! AUTH_COOKIE_NAME = Some (make_token h pw salt) ->
  is_authenticated h pw salt jar = true.
Proof.
  intros Hne E. unfold is_authenticated. rewrite E.
  destruct (make_token h pw salt) eqn:Et; [contradiction|].
  rewrite <- Et. apply String.eqb_refl.
Qed.

(** The login round trip: posting the right password answers with a 302
    redirect to "/" that sets the [rohini_auth] cookie to the token
    (HttpOnly, SameSite=lax, seven days); a client that stores it is
    authenticated from then on. *)
Theorem login_post_authenticates (h : string -> string -> string) (pw salt html : string)
  (jar : cookie_jar) (Htok : make_token h pw salt <> EmptyString) :
  login_post h pw salt html pw =
    Redirect "/" 302 (SetCookie AUTH_COOKIE_NAME (make_token h pw salt) 604800 true false "lax") /\
  is_authenticated h pw salt (store_cookies jar (login_post h pw salt html pw)) = true.
Proof.
  unfold login_post. rewrite String.eqb_refl. simpl. split; [reflexivity|].
  apply is_authenticated_token; [exact Htok|]. apply lookup_insert_eq.
Qed.

Lemma login_post_authenticates_witness :
  let h := fun (key msg : string) => String.append key msg in
  make_token h "change_me_123" "rohini-secret-salt" <> EmptyString /\
  is_authenticated h "change_me_123" "rohini-secret-salt"
    (store_cookies ∅ (login_post h "change_me_123" "rohini-secret-salt" "" "change_me_123")) = true.
Proof.
  intros h. assert (Hne : make_token h "change_me_123" "rohini-secret-salt" <> EmptyString)
    by (vm_compute; discriminate).
  split; [exact Hne|].
  exact (proj2 (login_post_authenticates h "change_me_123" "rohini-secret-salt" "" ∅ Hne)).
Defined.



(** Logging out redirects to "/login" and deletes the [rohini_auth] cookie:
    whatever the client held before, it is no longer authenticated. *)
Theorem logout_deauthenticates (h : string -> string -> string) (pw salt : string)
  (jar : cookie_jar) :
  logout = Redirect "/login" 302 (DeleteCookie AUTH_COOKIE_NAME) /\
  is_authenticated h pw salt (store_cookies jar logout) = false.
Proof.
  split; [reflexivity|]. unfold is_authenticated. simpl.
  rewrite lookup_delete_eq. reflexivity.
Qed.




(** ** Display columns and the name column *)

Lemma fold_append_nodup (b : list pystr -> pystr -> bool) (l acc : list pystr) :
  (forall a c, b a c = true -> str_in c a = false) -> NoDup acc ->
  NoDup (fold_left (fun a c => if b a c then a ++ [c] else a) l acc).
Proof.
  intros Hb. revert acc. induction l as [|c l IH]; intros acc Hacc; simpl; [exact Hacc|].
  apply IH. destruct (b acc c) eqn:E; [|exact Hacc].
  apply NoDup_app. split; [exact Hacc|]. split; [|apply NoDup_singleton].
  intros x Hx Hx'. apply list_elem_of_singleton in Hx'. subst x.
  apply list_elem_of_In in Hx. apply (str_in_false c acc); [exact (Hb _ _ E) | exact Hx].
Qed.

Lemma fold_append_keep (b : list pystr -> pystr -> bool) (l acc : list pystr) (x : pystr) :
  In x acc -> In x (fold_left (fun a c => if b a c then a ++ [c] else a) l acc).
Proof.
  intros Hx. destruct (fold_append_if b (fun _ => True) l acc) as (rest & E & _); [tauto|].
  rewrite E. apply in_or_app. left. exact Hx.
Qed.

Lemma fold_append_cover (b : list pystr -> pystr -> bool) (l acc : list pystr) (x : pystr) :
  In x l -> (forall a, str_in x a = false -> b a x = true) ->
  In x (fold_left (fun a c => if b a c then a ++ [c] else a) l acc).
Proof.
  intros Hx Hb. revert acc. induction l as [|c l IH]; intros acc; [destruct Hx|].
  destruct Hx as [-> | Hx]; simpl; [|apply IH; exact Hx].
  apply fold_append_keep. destruct (str_in x acc) eqn:E.
  - destruct (b acc x); [apply in_or_app; left|]; apply str_in_spec; exact E.
  - rewrite (Hb acc E). apply in_or_app. right. left. reflexivity.
Qed.

(** [build_display_cols] never lists a column twice. *)
Theorem build_display_cols_nodup (df : frame) (name_col : pystr) :
  NoDup (build_display_cols df name_col).
Proof.
  unfold build_display_cols.
  apply fold_append_nodup.
  { intros a c Hb. apply andb_prop in Hb as [Hb _]. apply negb_true_iff in Hb. exact Hb. }
  apply fold_append_nodup; [|apply NoDup_singleton].
  intros a c Hb. apply andb_prop in Hb as [_ Hb]. apply negb_true_iff in Hb. exact Hb.
Qed.

(** [build_display_cols] lists exactly the name column and the columns of
    the frame whose name does not start with "_". *)
Theorem build_display_cols_members (df : frame) (name_col c : pystr) :
  In c (build_display_cols df name_col) <->
  c = name_col \/ (In c (df_columns df) /\ is_internal c = false).
Proof.
  unfold build_display_cols. split.
  - destruct (fold_append_if
                (fun acc c => str_in c (df_columns df) && negb (str_in c acc))
                (fun c => In c (df_columns df)) DISPLAY_COLS_PREFERENCE [name_col])
      as (rest1 & E1 & H1).
    { intros a d Hb. apply andb_prop in Hb as [Hb _]. apply str_in_spec. exact Hb. }
    rewrite E1.
    destruct (fold_append_if
                (fun acc c => negb (str_in c acc) && negb (is_internal c))
                (fun c => is_internal c = false) (df_columns df) ([name_col] ++ rest1))
      as (rest2 & E2 & H2).
    { intros a d Hb. apply andb_prop in Hb as [_ Hb]. apply negb_true_iff in Hb. exact Hb. }
    rewrite E2. intros Hc. apply in_app_or in Hc as [Hc | Hc].
    + apply in_app_or in Hc as [[<- | []] | Hc]; [left; reflexivity|].
      destruct (H1 c Hc) as [Hp Hcol]. right. split; [exact Hcol|].
      apply display_preference_not_internal. exact Hp.
    + destruct (H2 c Hc) as [Hcol Hi]. right. split; assumption.
  - intros [-> | [Hcol Hi]].
    + apply fold_append_keep, fold_append_keep. left. reflexivity.
    + apply fold_append_cover; [exact Hcol|].
      intros a Ha. rewrite Ha, Hi. reflexivity.
Qed.

Lemma first_preferred_value (U : ucd) (lm : gmap pystr pystr) (cands : list pystr) (c : pystr) :
  first_preferred U lm cands = Some c -> exists k, lm !! k = Some c.
Proof.
  induction cands as [|q cands IH]; simpl; [discriminate|].
  destruct (lm !! py_lower U q) eqn:E.
  - intros H. injection H as <-. eauto.
  - exact IH.
Qed.

(** The name column chosen by [load_dataset] is always a column of the frame
    (the frame has at least one column, as a frame read from a CSV file
    does), so [df[name_col]] never fails. *)
Theorem choose_name_col_is_column (U : ucd) (smp : Z -> nat -> list pystr -> list pystr)
  (force : option pystr) (df : frame) (Hne : df_columns df <> []) :
  In (choose_name_col U smp force df) (df_columns df).
Proof.
  assert (Hfb : In (match first_preferred U (lower_map U (df_columns df)) PREFERRED_NAME_COLUMNS with
                    | Some c => c
                    | None => match heuristic_go U smp df None (-1)%Q with
                              | Some ((_ :: _) as c) => c
                              | _ => List.hd [] (df_columns df)
                              end
                    end) (df_columns df)).
  { assert (Hhd : In (List.hd [] (df_columns df)) (df_columns df))
      by (destruct (df_columns df); [contradiction | left; reflexivity]).
    destruct (first_preferred U _ _) as [c|] eqn:Ef.
    - destruct (first_preferred_value U _ _ c Ef) as (k & Hk). unfold lower_map in Hk.
      destruct (lower_map_fold_some U (df_columns df) ∅ k c Hk) as [(pre & post & E & _) | [Hm _]].
      + rewrite E. apply in_or_app. right. left. reflexivity.
      + rewrite lookup_empty in Hm. discriminate.
    - destruct (heuristic_go_result U smp df None (-1)%Q) as [E | (c & ser & E & Hin & _)];
        rewrite E; [exact Hhd|].
      destruct c as [|a c']; [exact Hhd|].
      apply in_map_iff. exists (a :: c', ser). auto. }
  unfold choose_name_col.
  destruct (str_in (ustr "Full Name (English)") _) eqn:E1; [apply str_in_spec; exact E1|].
  destruct (str_in (ustr "Full Name (Marathi)") _) eqn:E2; [apply str_in_spec; exact E2|].
  destruct (str_in (ustr "Full Name") _) eqn:E3; [apply str_in_spec; exact E3|].
  unfold pick_name_column. cbv zeta.
  destruct force as [[|a f]|]; try exact Hfb.
  destruct (str_in (a :: f) (df_columns df)) eqn:Ef; [apply str_in_spec; exact Ef | exact Hfb].
Qed.

Lemma choose_name_col_is_column_witness :
  let df := [(ustr "Voter ID", [ustr "ABC1234567"]); (ustr "Naam", [ustr "Ravi"])] in
  df_columns df <> [] /\
  In (choose_name_col ucd_fragment sample_prefix (Some (ustr "Missing")) df) (df_columns df).
Proof.
  intros df. assert (Hne : df_columns df <> []) by discriminate.
  split; [exact Hne|]. exact (choose_name_col_is_column ucd_fragment sample_prefix _ df Hne).
Defined.

Section HeuristicBest.
Variable U : ucd.
Variable smp : Z -> nat -> list pystr -> list pystr.

Local Definition scored (ser : list pystr) (sc : Q) : Prop :=
  is_probably_epic U smp ser = false /\ col_score U smp ser = Some sc.

Lemma heuristic_go_best (cols : frame) (best : option pystr) (bs : Q) :
  (heuristic_go U smp cols best bs = best /\
   forall c' s' sc', In (c', s') cols -> scored s' sc' -> (sc' <= bs)%Q) \/
  exists pre c ser sc post,
    cols = pre ++ (c, ser) :: post /\ scored ser sc /\ (bs < sc)%Q /\
    heuristic_go U smp cols best bs = Some c /\
    (forall c' s' sc', In (c', s') pre -> scored s' sc' -> (sc' < sc)%Q) /\
    (forall c' s' sc', In (c', s') post -> scored s' sc' -> (sc' <= sc)%Q).
Proof.
  revert best bs. induction cols as [|[c ser] cols IH]; intros best bs; simpl.
  { left. split; [reflexivity | intros ? ? ? []]. }
  assert (Lift : forall b0 b1,
    (heuristic_go U smp cols b0 b1 = best /\
     forall c' s' sc', In (c', s') cols -> scored s' sc' -> (sc' <= bs)%Q) ->
    (forall sc, scored ser sc -> (sc <= bs)%Q) ->
    heuristic_go U smp cols b0 b1 = best /\
    forall c' s' sc', (c, ser) = (c', s') \/ In (c', s') cols -> scored s' sc' -> (sc' <= bs)%Q).
  { intros b0 b1 [E Hall] Hh. split; [exact E|].
    intros c' s' sc' [Eq | Hin] Hs; [injection Eq as <- <-; exact (Hh _ Hs) | exact (Hall _ _ _ Hin Hs)]. }
  assert (Grow : forall b0 b1,
    (exists pre c0 ser0 sc post, cols = pre ++ (c0, ser0) :: post /\ scored ser0 sc /\ (b1 < sc)%Q /\
       heuristic_go U smp cols b0 b1 = Some c0 /\
       (forall c' s' sc', In (c', s') pre -> scored s' sc' -> (sc' < sc)%Q) /\
       (forall c' s' sc', In (c', s') post -> scored s' sc' -> (sc' <= sc)%Q)) ->
    (bs <= b1)%Q ->
    (forall sc, scored ser sc -> (sc <= b1)%Q) ->
    exists pre c0 ser0 sc post, (c, ser) :: cols = pre ++ (c0, ser0) :: post /\ scored ser0 sc /\
       (bs < sc)%Q /\ heuristic_go U smp cols b0 b1 = Some c0 /\
       (forall c' s' sc', In (c', s') pre -> scored s' sc' -> (sc' < sc)%Q) /\
       (forall c' s' sc', In (c', s') post -> scored s' sc' -> (sc' <= sc)%Q)).
  { intros b0 b1 (pre & c0 & ser0 & sc & post & E & Hs & Hlt & Hr & Hpre & Hpost) Hb Hh.
    exists ((c, ser) :: pre), c0, ser0, sc, post.
    split; [rewrite E; reflexivity|]. split; [exact Hs|]. split; [lra|]. split; [exact Hr|].
    split; [|exact Hpost].
    intros c' s' sc' [Eq | Hin] Hs'; [|exact (Hpre _ _ _ Hin Hs')].
    injection Eq as <- <-. specialize (Hh _ Hs'). lra. }
  destruct (is_probably_epic U smp ser) eqn:Ep.
  - destruct (IH best bs) as [L | R].
    + left. apply Lift; [exact L|]. intros sc [Hs _]. congruence.
    + right. apply Grow; [exact R | lra |]. intros sc [Hs _]. congruence.
  - destruct (col_score U smp ser) as [score|] eqn:Es.
    + destruct (Qle_bool score bs) eqn:Eq; simpl.
      * apply Qle_bool_iff in Eq.
        destruct (IH best bs) as [L | R].
        -- left. apply Lift; [exact L|]. intros sc [_ Hs]. congruence.
        -- right. apply Grow; [exact R | lra |]. intros sc [_ Hs]. congruence.
      * assert (Hlt : (bs < score)%Q).
        { apply Qnot_le_lt. intros Hle. apply Qle_bool_iff in Hle. congruence. }
        right. destruct (IH (Some c) score) as [[E Hall] | R].
        -- exists [], c, ser, score, cols. split; [reflexivity|]. split; [split; assumption|].
           split; [exact Hlt|]. split; [exact E|]. split; [intros ? ? ? []|exact Hall].
        -- apply Grow; [exact R | lra |]. intros sc [_ Hs]. rewrite Es in Hs.
           injection Hs as <-. lra.
    + destruct (IH best bs) as [L | R].
      * left. apply Lift; [exact L|]. intros sc [_ Hs]. congruence.
      * right. apply Grow; [exact R | lra |]. intros sc [_ Hs]. congruence.
Qed.

End HeuristicBest.

(** The textiness heuristic picks a column that is not identifier-like and
    has the highest mean alpha ratio among those columns: every column
    before it scores strictly lower, every column after it no higher (the
    first of equal scores wins; columns whose score is NaN are skipped). *)
Theorem heuristic_picks_best (U : ucd) (smp : Z -> nat -> list pystr -> list pystr)
  (df : frame) (c : pystr) (H : heuristic_go U smp df None (-1)%Q = Some c) :
  exists pre ser sc post,
    df = pre ++ (c, ser) :: post /\
    is_probably_epic U smp ser = false /\ col_score U smp ser = Some sc /\
    (forall c' ser' sc', In (c', ser') pre -> is_probably_epic U smp ser' = false ->
       col_score U smp ser' = Some sc' -> (sc' < sc)%Q) /\
    (forall c' ser' sc', In (c', ser') post -> is_probably_epic U smp ser' = false ->
       col_score U smp ser' = Some sc' -> (sc' <= sc)%Q).
Proof.
  destruct (heuristic_go_best U smp df None (-1)%Q) as [[E _] | (pre & c0 & ser & sc & post & E & [He Hs] & _ & Hr & Hpre & Hpost)].
  - congruence.
  - rewrite H in Hr. injection Hr as <-.
    exists pre, ser, sc, post. split; [exact E|]. split; [exact He|]. split; [exact Hs|].
    split; intros c' ser' sc' Hin He' Hs'; [apply (Hpre c' ser') | apply (Hpost c' ser')];
      solve [assumption | split; assumption].
Qed.

Lemma heuristic_picks_best_witness :
  let df := [(ustr "Ward", [ustr "1abc"; ustr "2 ab"]); (ustr "Naam", [ustr "Ravi"; ustr "Sita"]);
             (ustr "Gaon", [ustr "Pune"; ustr "Agra"])] in
  heuristic_go ucd_fragment sample_prefix df None (-1)%Q = Some (ustr "Naam") /\
  exists pre ser sc post,
    df = pre ++ (ustr "Naam", ser) :: post /\
    is_probably_epic ucd_fragment sample_prefix ser = false /\
    col_score ucd_fragment sample_prefix ser = Some sc /\
    (forall c' ser' sc', In (c', ser') pre -> is_probably_epic ucd_fragment sample_prefix ser' = false ->
       col_score ucd_fragment sample_prefix ser' = Some sc' -> (sc' < sc)%Q) /\
    (forall c' ser' sc', In (c', ser') post -> is_probably_epic ucd_fragment sample_prefix ser' = false ->
       col_score ucd_fragment sample_prefix ser' = Some sc' -> (sc' <= sc)%Q).
Proof.
  intros df. assert (H : heuristic_go ucd_fragment sample_prefix df None (-1)%Q = Some (ustr "Naam"))
    by (vm_compute; reflexivity).
  split; [exact H|]. exact (heuristic_picks_best ucd_fragment sample_prefix df _ H).
Defined.

(** [_read_csv_with_fallbacks] returns the frame read with the first
    encoding of its list that succeeds; the encodings before it all failed. *)
Theorem read_csv_first_success (src : source) (df : frame)
  (H : read_csv_with_fallbacks src = Some df) :
  exists pre e post, encs = pre ++ e :: post /\
    (forall e', In e' pre -> src_read src e' = None) /\ src_read src e = Some df.
Proof.
  unfold read_csv_with_fallbacks in H. revert H. generalize encs as es.
  induction es as [|e es IH]; simpl; [discriminate|].
  destruct (src_read src e) as [d|] eqn:E.
  - intros Hd. injection Hd as <-. exists [], e, es. split; [reflexivity|].
    split; [intros _ []|exact E].
  - intros Hd. destruct (IH Hd) as (pre & e' & post & Ees & Hpre & He').
    exists (e :: pre), e', post. rewrite Ees. split; [reflexivity|]. split; [|exact He'].
    intros e'' [<- | Hin]; [exact E | exact (Hpre _ Hin)].
Qed.

Lemma read_csv_first_success_witness :
  let df := [(ustr "Name", [ustr "Ravi"])] in
  let src := {| src_exists := true;
                src_read := fun e => if String.eqb e "utf-8" then None else Some df |} in
  read_csv_with_fallbacks src = Some df /\
  exists pre e post, encs = pre ++ e :: post /\
    (forall e', In e' pre -> src_read src e' = None) /\ src_read src e = Some df.
Proof.
  intros df src. assert (H : read_csv_with_fallbacks src = Some df) by reflexivity.
  split; [exact H|]. exact (read_csv_first_success src df H).
Defined.

(** ** Loading and reloading *)

Lemma str_eqb_neq (a b : pystr) : a <> b -> str_eqb a b = false.
Proof. intros H. unfold str_eqb. apply bool_decide_eq_false. exact H. Qed.

Lemma df_get_cons (c k : pystr) (v : list pystr) (df : frame) :
  df_get ((c, v) :: df) k = if str_eqb c k then v else df_get df k.
Proof. unfold df_get. simpl. destruct (str_eqb c k); reflexivity. Qed.

Lemma df_get_app_absent (df : frame) (k c : pystr) (v : list pystr) :
  ~ In c (df_columns df) -> df_get (df ++ [(k, v)]) c = if str_eqb k c then v else df_get df c.
Proof.
  induction df as [|[d w] df IH]; intros Hc; simpl.
  - rewrite df_get_cons. reflexivity.
  - rewrite !df_get_cons. destruct (str_eqb d c) eqn:E.
    + exfalso. apply Hc. left. apply str_eqb_spec. exact E.
    + apply IH. intros Hin. apply Hc. right. exact Hin.
Qed.

Lemma df_get_absent (df : frame) (c : pystr) : ~ In c (df_columns df) -> df_get df c = [].
Proof.
  induction df as [|[d w] df IH]; intros Hc; [reflexivity|]. rewrite df_get_cons.
  destruct (str_eqb d c) eqn:E.
  - exfalso. apply Hc. left. apply str_eqb_spec. exact E.
  - apply IH. intros Hin. apply Hc. right. exact Hin.
Qed.

Lemma str_eqb_sym (a b : pystr) : str_eqb a b = str_eqb b a.
Proof.
  destruct (str_eqb a b) eqn:E; symmetry.
  - apply str_eqb_spec in E. subst. apply str_eqb_spec. reflexivity.
  - apply str_eqb_neq. intros ->. rewrite (proj2 (str_eqb_spec a a) eq_refl) in E. discriminate.
Qed.

Lemma df_get_map_set (df : frame) (k c : pystr) (v : list pystr) :
  df_get (List.map (fun p => if str_eqb (fst p) k then (k, v) else p) df) c =
  if str_eqb k c then (if str_in k (df_columns df) then v else []) else df_get df c.
Proof.
  destruct (str_eqb k c) eqn:Ekc.
  - apply str_eqb_spec in Ekc. subst c.
    induction df as [|[d w] df IH]; [reflexivity|]. simpl.
    rewrite (str_eqb_sym k d).
    destruct (str_eqb d k) eqn:E; simpl.
    + rewrite df_get_cons, (proj2 (str_eqb_spec k k) eq_refl). reflexivity.
    + rewrite df_get_cons, E. exact IH.
  - induction df as [|[d w] df IH]; [reflexivity|]. simpl.
    destruct (str_eqb d k) eqn:E.
    + apply str_eqb_spec in E. subst d. rewrite !df_get_cons, Ekc. exact IH.
    + rewrite !df_get_cons. destruct (str_eqb d c); [reflexivity | exact IH].
Qed.

Lemma df_get_set (df : frame) (k c : pystr) (v : list pystr) :
  df_get (df_set df k v) c = if str_eqb k c then v else df_get df c.
Proof.
  unfold df_set. destruct (str_in k (df_columns df)) eqn:Ek.
  - rewrite df_get_map_set, Ek. reflexivity.
  - destruct (str_eqb k c) eqn:Ekc.
    + apply str_eqb_spec in Ekc. subst c. induction df as [|[d w] df IH]; simpl.
      * rewrite df_get_cons. unfold str_eqb. rewrite bool_decide_eq_true_2; reflexivity.
      * rewrite df_get_cons. unfold str_in in Ek. simpl in Ek.
        apply orb_false_iff in Ek as [Ekd Ek].
        rewrite (str_eqb_neq d k); [apply IH; exact Ek|].
        intros E. subst. unfold str_eqb in Ekd. rewrite bool_decide_eq_true_2 in Ekd; congruence.
    + destruct (str_in c (df_columns df)) eqn:Ec.
      * induction df as [|[d w] df IH]; [discriminate|]. simpl. rewrite !df_get_cons.
        unfold str_in in Ek, Ec. simpl in Ek, Ec. apply orb_false_iff in Ek as [_ Ek].
        destruct (str_eqb d c) eqn:Edc; [reflexivity|]. apply IH; [exact Ek|].
        rewrite (str_eqb_sym c d), Edc in Ec. exact Ec.
      * rewrite df_get_app_absent, Ekc; [reflexivity|]. apply str_in_false. exact Ec.
Qed.

Lemma df_columns_set (df : frame) (k c : pystr) (v : list pystr) :
  In c (df_columns (df_set df k v)) <-> In c (df_columns df) \/ c = k.
Proof.
  unfold df_set, df_columns. destruct (str_in k (List.map fst df)) eqn:Ek.
  - rewrite map_map. apply str_in_spec in Ek.
    assert (Hm : List.map (fun p => fst (if str_eqb (fst p) k then (k, v) else p)) df = List.map fst df).
    { apply map_ext. intros [d w]. simpl. destruct (str_eqb d k) eqn:E; [|reflexivity].
      apply str_eqb_spec in E. simpl. symmetry. exact E. }
    rewrite Hm. split; [left; exact H | intros [H | ->]; assumption].
  - rewrite map_app. simpl. rewrite in_app_iff. simpl. intuition.
Qed.

Lemma df_len_set (df : frame) (k : pystr) (v : list pystr) :
  length v = df_len df -> df_len (df_set df k v) = df_len df.
Proof.
  intros Hv. unfold df_set. destruct (str_in k (df_columns df)).
  - destruct df as [|[d w] df]; [reflexivity|]. simpl.
    destruct (str_eqb d k); simpl; [exact Hv | reflexivity].
  - destruct df as [|[d w] df]; [exact Hv | reflexivity].
Qed.

Lemma df_get_in (df : frame) (k : pystr) : In k (df_columns df) -> In (k, df_get df k) df.
Proof.
  induction df as [|[d w] df IH]; intros Hk; [destruct Hk|]. rewrite df_get_cons.
  destruct (str_eqb d k) eqn:E.
  - apply str_eqb_spec in E. subst. left. reflexivity.
  - right. apply IH. destruct Hk as [Hk | Hk]; [|exact Hk].
    simpl in Hk. subst. rewrite (proj2 (str_eqb_spec k k) eq_refl) in E. discriminate.
Qed.

Lemma name_key_ne_norm : NAME_KEY <> NAME_NORM.
Proof. vm_compute. discriminate. Qed.



Lemma load_dataset_shape (U : ucd) (smp : Z -> nat -> list pystr -> list pystr)
  (force : option pystr) (src : source) :
  (exists e, forall st, load_dataset U smp force src st = (Raise e, st)) \/
  (exists st' df', DF st' = Some df' /\ forall st, load_dataset U smp force src st = (Ok tt, st')).
Proof.
  destruct (src_exists src) eqn:Ee.
  - destruct (read_csv_with_fallbacks src) as [df|] eqn:Er.
    + right. exists (snd (load_dataset U smp force src init_state)). eexists.
      split; [unfold load_dataset; rewrite Ee, Er; reflexivity|].
      intros st. unfold load_dataset. rewrite Ee, Er. reflexivity.
    + left. exists ReadFailure. intros st. unfold load_dataset. rewrite Ee, Er. reflexivity.
  - left. exists FileNotFoundError. intros st. unfold load_dataset. rewrite Ee. reflexivity.
Qed.

(** Reloading twice from an unchanged file gives the same response and the
    same state as reloading once: a successful load does not depend on the
    previous state, and a failed one leaves it as it was. *)
Theorem reload_idempotent (U : ucd) (smp : Z -> nat -> list pystr -> list pystr)
  (force : option pystr) (src : source) (st : ds_state) :
  reload_ds U smp force src (snd (reload_ds U smp force src st)) = reload_ds U smp force src st.
Proof.
  unfold reload_ds, bindM, getM, needDF, retM, raiseM.
  destruct (load_dataset_shape U smp force src) as [(e & He) | (st' & df' & Hdf & Hs)].
  - rewrite !He. reflexivity.
  - rewrite !Hs, !Hdf. simpl. rewrite ?Hs, ?Hdf. reflexivity.
Qed.

(** After a successful reload, [meta] reports the name column and the row
    count that the reload response announced. *)
Theorem reload_meta_agree (U : ucd) (smp : Z -> nat -> list pystr -> list pystr)
  (force : option pystr) (src : source) (st st' : ds_state) (out : reload_out)
  (H : reload_ds U smp force src st = (Ok out, st')) :
  exists m, meta st' = (Ok m, st') /\ m_name_col m = r_name_col out /\
    m_total_rows m = r_total_rows out /\ r_ok out = true.
Proof.
  revert H. unfold reload_ds, meta, bindM, getM, needDF, retM, raiseM.
  destruct (load_dataset U smp force src st) as [[u | e] s1]; [|discriminate].
  destruct (DF s1) as [df|] eqn:Hd; [|discriminate].
  intros E. injection E as <- <-. rewrite Hd. eexists. split; [reflexivity|]. simpl. auto.
Qed.

Lemma reload_meta_agree_witness :
  let src := csv_source [(ustr "Name", [ustr "Ravi"; ustr "Amit"])] in
  let r := reload_ds ucd_fragment sample_prefix None src init_state in
  (exists out, fst r = Ok out) /\
  exists m, meta (snd r) = (Ok m, snd r) /\ m_total_rows m = 2%nat.
Proof.
  intros src r.
  assert (H : r = (Ok {| r_ok := true; r_name_col := ustr "Name"; r_total_rows := 2 |}, snd r))
    by (vm_compute; reflexivity).
  split; [rewrite H; eexists; reflexivity|].
  destruct (reload_meta_agree ucd_fragment sample_prefix None src init_state (snd r) _ H)
    as (m & Hm & _ & Ht & _).
  exists m. split; [exact Hm | rewrite Ht; reflexivity].
Defined.

(** ** Suggestions and lookups *)

Lemma dedup_go_spec (seen l : list pystr) :
  NoDup (dedup_go seen l) /\ forall x, In x (dedup_go seen l) -> In x l /\ ~ In x seen.
Proof.
  revert seen. induction l as [|y l IH]; intros seen; simpl.
  - split; [constructor | intros _ []].
  - destruct (str_in y seen) eqn:E.
    + destruct (IH seen) as [Hn Hs]. split; [exact Hn|].
      intros x Hx. destruct (Hs x Hx). split; [right|]; assumption.
    + destruct (IH (y :: seen)) as [Hn Hs]. split.
      * constructor; [|exact Hn]. intros Hy. apply list_elem_of_In in Hy.
        destruct (Hs y Hy) as [_ Hy']. apply Hy'. left. reflexivity.
      * intros x [<- | Hx]; [split; [left; reflexivity | apply str_in_false; exact E]|].
        destruct (Hs x Hx) as [H1 H2]. split; [right; exact H1|].
        intros H3. apply H2. right. exact H3.
Qed.

Lemma head_prefix {A} (n : Z) (l : list A) : exists k, head n l = firstn k l /\ (0 <= n -> k = Z.to_nat n).
Proof.
  unfold head. destruct (Z.leb_spec 0 n).
  - exists (Z.to_nat n). auto.
  - exists (length l - Z.to_nat (- n))%nat. split; [reflexivity | lia].
Qed.

Lemma firstn_nodup (k : nat) (l : list pystr) : NoDup l -> NoDup (firstn k l).
Proof.
  intros H. rewrite <- (firstn_skipn k l) in H. apply NoDup_app in H as [H _]. exact H.
Qed.

Lemma in_firstn_in {A} (k : nat) (l : list A) (x : A) : In x (firstn k l) -> In x l.
Proof. intros H. rewrite <- (firstn_skipn k l). apply in_or_app. left. exact H. Qed.

Lemma select_sub {A} (mask : list bool) (col : list A) (x : A) : In x (select mask col) -> In x col.
Proof.
  revert col. induction mask as [|b mask IH]; intros [|y col]; simpl; try tauto.
  destruct b; [intros [<- | H]; [left; reflexivity | right; exact (IH col H)]|].
  intros H. right. exact (IH col H).
Qed.

Lemma select_length {A} (mask : list bool) (col : list A) :
  (length mask <= length col)%nat -> length (select mask col) = length (List.filter id mask).
Proof.
  revert col. induction mask as [|b mask IH]; intros [|y col] Hl; simpl in *; try lia.
  destruct b; simpl; [f_equal|]; apply IH; lia.
Qed.

Lemma select_length_le {A} (mask : list bool) (col : list A) :
  (length (select mask col) <= length col)%nat.
Proof.
  revert col. induction mask as [|b mask IH]; intros [|y col]; simpl; try lia.
  destruct b; simpl; specialize (IH col); lia.
Qed.

(** A successful [suggest] never lists a name twice, lists at most [limit]
    names when [limit] is not negative, and lists only trimmed values of
    cells of the name column. *)
Theorem suggest_output_shape (U : ucd) (RE : re_engine) (q : pystr) (limit : Z)
  (st : ds_state) (df : frame) (out : list pystr)
  (Hdf : DF st = Some df) (H : fst (suggest U RE q limit st) = Ok out) :
  NoDup out /\ (0 <= limit -> (length out <= Z.to_nat limit)%nat) /\
  forall x, In x out -> exists v, In v (df_get df (NAME_COL st)) /\ x = py_strip v.
Proof.
  assert (Gen : forall l, (forall x, In x l -> exists v, In v (df_get df (NAME_COL st)) /\ x = py_strip v) ->
            out = head limit (drop_duplicates l) ->
            NoDup out /\ (0 <= limit -> (length out <= Z.to_nat limit)%nat) /\
            forall x, In x out -> exists v, In v (df_get df (NAME_COL st)) /\ x = py_strip v).
  { intros l Hl ->. destruct (head_prefix limit (drop_duplicates l)) as (k & E & Hk).
    rewrite E. destruct (dedup_go_spec [] l) as [Hn Hs]. unfold drop_duplicates.
    split; [apply firstn_nodup; exact Hn|]. split.
    - intros Hlim. rewrite length_firstn. rewrite (Hk Hlim). lia.
    - intros x Hx. apply in_firstn_in in Hx. apply Hl. exact (proj1 (Hs x Hx)). }
  revert H. unfold suggest, bindM, getM, needDF, retM, raiseM. rewrite Hdf.
  destruct (strip_marks U q) as [|a qs]; simpl.
  - intros E. injection E as E. eapply Gen. 2: (symmetry; exact E).
    intros x Hx. apply filter_In in Hx as [Hx _]. apply in_map_iff in Hx as (v & <- & Hv). eauto.
  - destruct (re_compile RE (a :: qs)) as [srch|]; simpl; [|discriminate].
    intros E. injection E as E. eapply Gen. 2: (symmetry; exact E).
    intros x Hx. apply in_map_iff in Hx as (v & <- & Hv). exists v. split; [|reflexivity].
    exact (select_sub _ _ _ Hv).
Qed.

Lemma suggest_output_shape_witness :
  let df := [(ustr "Name", [ustr " Ravi"; ustr "Ravi "; ustr "Ravi Shankar"; ustr "Amit"]);
             (NAME_NORM, [ustr "ravi"; ustr "ravi"; ustr "ravi shankar"; ustr "amit"])] in
  let st := {| DF := Some df; NAME_COL := ustr "Name"; DISPLAY_COLS := [] |} in
  fst (suggest ucd_fragment re_fragment (ustr "rav") 5 st) = Ok [ustr "Ravi"; ustr "Ravi Shankar"] /\
  NoDup [ustr "Ravi"; ustr "Ravi Shankar"].
Proof.
  intros df st.
  assert (H : fst (suggest ucd_fragment re_fragment (ustr "rav") 5 st) = Ok [ustr "Ravi"; ustr "Ravi Shankar"])
    by (vm_compute; reflexivity).
  split; [exact H|].
  exact (proj1 (suggest_output_shape ucd_fragment re_fragment _ 5 st df _ eq_refl H)).
Defined.

Lemma rows_of_keys (df : frame) (mask : list bool) (r : row) :
  In r (rows_of df mask) -> List.map fst r = List.filter (fun c => negb (is_internal c)) (df_columns df).
Proof.
  unfold rows_of, df_columns. intros Hr. apply in_map_iff in Hr as (i & <- & _).
  rewrite map_map. simpl. induction df as [|[c v] df IH]; [reflexivity|]. simpl.
  destruct (negb (is_internal c)); simpl; [f_equal|]; exact IH.
Qed.



Lemma filter_id_map {A} (f : A -> bool) (l : list A) :
  length (List.filter id (List.map f l)) = length (List.filter f l).
Proof. induction l as [|x l IH]; simpl; [reflexivity|]. destruct (f x); simpl; [f_equal|]; exact IH. Qed.

(** When some row's "_name_key" equals the trimmed, lowercased input,
    [lookup] returns exactly one row per such row: the substring fallback
    is not consulted. *)
Theorem lookup_exact_count (U : ucd) (RE : re_engine) (name : pystr) (st : ds_state)
  (df : frame) (Hdf : DF st = Some df) (Hne : py_strip name <> [])
  (Hlen : length (df_get df NAME_KEY) = df_len df)
  (Hex : In (py_lower U (py_strip name)) (df_get df NAME_KEY)) :
  exists out, lookup U RE name st = (Ok out, st) /\
    l_count out = length (List.filter (str_eqb (py_lower U (py_strip name))) (df_get df NAME_KEY)).
Proof.
  assert (Hany : existsb id (List.map (str_eqb (py_lower U (py_strip name))) (df_get df NAME_KEY)) = true).
  { apply existsb_exists. exists true. split; [|reflexivity]. apply in_map_iff.
    exists (py_lower U (py_strip name)). split; [apply str_eqb_spec; reflexivity | exact Hex]. }
  rewrite (lookup_exact_first U RE name st df Hdf Hne Hany). eexists. split; [reflexivity|].
  simpl. unfold rows_of. rewrite length_map, select_length.
  - apply filter_id_map.
  - rewrite length_map, length_seq, Hlen. lia.
Qed.

Lemma lookup_exact_count_witness :
  let df := [(ustr "Name", [ustr "Ravi"; ustr "Ravi Shankar"; ustr " ravi"]);
             (NAME_KEY, [ustr "ravi"; ustr "ravi shankar"; ustr "ravi"])] in
  let st := {| DF := Some df; NAME_COL := ustr "Name"; DISPLAY_COLS := [] |} in
  exists out, lookup ucd_fragment re_fragment (ustr "RAVI ") st = (Ok out, st) /\ l_count out = 2%nat.
Proof.
  intros df st.
  destruct (lookup_exact_count ucd_fragment re_fragment (ustr "RAVI ") st df eq_refl
              ltac:(vm_compute; discriminate) eq_refl ltac:(vm_compute; tauto)) as (out & H & Hc).
  exists out. split; [exact H|]. rewrite Hc. vm_compute. reflexivity.
Defined.

(** ** Normalized strings *)

Lemma last_rev_hd (l : pystr) (d : Z) : List.last (rev l) d = List.hd d l.
Proof. destruct l as [|a l]; [reflexivity|]. simpl. apply last_last. Qed.

Lemma py_strip_trimmed (s : pystr) :
  match py_strip s with
  | [] => True
  | a :: _ => py_isspace a = false /\ py_isspace (List.last (py_strip s) 0) = false
  end.
Proof.
  destruct (lstrip_shape s) as [E | (a & v & E & Ha)].
  - unfold py_strip. rewrite E. exact I.
  - assert (P : py_strip s = a :: rev (lstrip (rev v))).
    { unfold py_strip. rewrite E. apply rstrip_cons. exact Ha. }
    rewrite P. split; [exact Ha|]. rewrite <- P. unfold py_strip. rewrite last_rev_hd.
    destruct (lstrip_shape (rev (lstrip s))) as [E2 | (b & w & E2 & Hb)].
    + exfalso. rewrite E in E2. simpl in E2. rewrite lstrip_snoc in E2 by exact Ha.
      destruct (lstrip (rev v)); discriminate.
    + rewrite E2. exact Hb.
Qed.

(** [strip_marks] never returns a string that starts or ends with
    whitespace. *)
Theorem strip_marks_trimmed (U : ucd) (x : pystr) :
  match strip_marks U x with
  | [] => True
  | a :: _ => py_isspace a = false /\ py_isspace (List.last (strip_marks U x) 0) = false
  end.
Proof. unfold strip_marks. apply py_strip_trimmed. Qed.
